(** * Schema introspection of a Cobra command tree (package mtp)

    A shallow embedding of [introspect.go], [mtp.go] and [types.go]: the
    flag type and default extractors, the positional-argument parser, the
    per-command extraction, the command-tree walker, [Describe] and
    [EnumValues], followed by the properties of the specification.

    Go strings are byte strings ([string] of [ascii]); Go maps are stdpp
    [gmap]s; a nil pointer is [None]. *)

From Stdlib Require Import Ascii String NArith.
From stdpp Require Import base option list strings gmap sorting.

Set Warnings "-register-all".

(** ** The [strings] functions the package calls *)

Module strings.

(** The width in bytes of a white-space rune ([unicode.IsSpace]) encoded
    at the head of [bs], or [0] when the head is no such rune.  The runes
    are tab, line feed, vertical tab, form feed, carriage return, space,
    U+0085, U+00A0, U+1680, U+2000..U+200A, U+2028, U+2029, U+202F, U+205F
    and U+3000, each in its UTF-8 encoding. *)
Definition spaceWidth (bs : list N) : nat :=
  match bs with
  | (9 | 10 | 11 | 12 | 13 | 32)%N :: _ => 1
  | 194%N :: (133 | 160)%N :: _ => 2
  | 225%N :: 154%N :: 128%N :: _ => 3
  | 226%N :: 128%N :: c :: _ =>
      if (bool_decide (128 ≤ c ≤ 138) || bool_decide (c = 168) ||
          bool_decide (c = 169) || bool_decide (c = 175))%N
      then 3 else 0
  | 226%N :: 129%N :: 159%N :: _ => 3
  | 227%N :: 128%N :: 128%N :: _ => 3
  | _ => 0
  end.

(** The same looking backwards: [rbs] is a byte string reversed. *)
Definition spaceWidthRev (rbs : list N) : nat :=
  match rbs with
  | b0 :: rest =>
      if decide (spaceWidth [b0] = 1) then 1
      else match rest with
           | b1 :: rest' =>
               if decide (spaceWidth [b1; b0] = 2) then 2
               else match rest' with
                    | b2 :: _ => if decide (spaceWidth [b2; b1; b0] = 3) then 3 else 0
                    | [] => 0
                    end
           | [] => 0
           end
  | [] => 0
  end.

Definition flush (cur : list ascii) : list string :=
  match cur with
  | [] => []
  | _ => [string_of_list_ascii (reverse cur)]
  end.

(** [fieldsFrom cs skip cur]: [skip] bytes of a white-space rune are
    still to be passed over; [cur] is the field being read, reversed. *)
Fixpoint fieldsFrom (cs : list ascii) (skip : nat) (cur : list ascii) : list string :=
  match cs with
  | [] => flush cur
  | c :: cs' =>
      match skip with
      | S k => fieldsFrom cs' k cur
      | O =>
          match spaceWidth (N_of_ascii <$> cs) with
          | O => fieldsFrom cs' 0 (c :: cur)
          | S k => flush cur ++ fieldsFrom cs' k []
          end
      end
  end.

(** [strings.Fields]: the maximal runs of non-white-space. *)
Definition Fields (s : string) : list string :=
  fieldsFrom (list_ascii_of_string s) 0 [].

Fixpoint dropSpace (width : list N → nat) (cs : list ascii) (skip : nat) : list ascii :=
  match cs with
  | [] => []
  | _ :: cs' =>
      match skip with
      | S k => dropSpace width cs' k
      | O =>
          match width (N_of_ascii <$> cs) with
          | O => cs
          | S k => dropSpace width cs' k
          end
      end
  end.

(** [strings.TrimSpace]: all leading and trailing white space removed. *)
Definition TrimSpace (s : string) : string :=
  let left := dropSpace spaceWidth (list_ascii_of_string s) 0 in
  string_of_list_ascii (reverse (dropSpace spaceWidthRev (reverse left) 0)).

Fixpoint HasPrefix (s prefix : string) : bool :=
  match prefix, s with
  | EmptyString, _ => true
  | String p prefix', String c s' => bool_decide (p = c) && HasPrefix s' prefix'
  | String _ _, EmptyString => false
  end.

Definition HasSuffix (s suffix : string) : bool :=
  HasPrefix (string_of_list_ascii (reverse (list_ascii_of_string s)))
            (string_of_list_ascii (reverse (list_ascii_of_string suffix))).

Fixpoint trimLeft (cutset : list ascii) (cs : list ascii) : list ascii :=
  match cs with
  | c :: cs' => if bool_decide (c ∈ cutset) then trimLeft cutset cs' else cs
  | [] => []
  end.

(** [strings.Trim] for a cutset of ASCII bytes, as both call sites have:
    leading and trailing bytes of the cutset removed. *)
Definition Trim (s cutset : string) : string :=
  let cut := list_ascii_of_string cutset in
  string_of_list_ascii
    (trimLeft cut (reverse (trimLeft cut (reverse (list_ascii_of_string s))))).

End strings.

(** ** Data model ([types.go]) *)

(** A value of Go's [any], as far as the schema carries one: flag defaults
    and the JSON-like content of an I/O schema. *)
Inductive any : Type :=
  | any_bool (b : bool)
  | any_string (s : string)
  | any_number (n : Z)
  | any_list (l : list any)
  | any_map (m : list (string * any)).

Record ArgDescriptor := {
  arg_Name : string;
  arg_Type : string;
  arg_Description : string;
  arg_Required : bool;
  arg_Default : option any;
  arg_Values : list string
}.

Record IODescriptor := {
  io_ContentType : string;
  io_Description : string;
  io_Schema : list (string * any)
}.

Record Example := {
  ex_Description : string;
  ex_Command : string;
  ex_Output : string
}.

Record AuthProvider := {
  prov_ID : string;
  prov_Type : string;
  prov_DisplayName : string;
  prov_AuthorizationURL : string;
  prov_TokenURL : string;
  prov_Scopes : list string;
  prov_ClientID : string;
  prov_RegistrationURL : string;
  prov_Instructions : string
}.

Record AuthConfig := {
  auth_Required : bool;
  auth_EnvVar : string;
  auth_Providers : list AuthProvider
}.

Record CommandAuth := {
  cauth_Required : bool;
  cauth_Scopes : list string
}.

Record CommandDescriptor := {
  cd_Name : string;
  cd_Description : string;
  cd_Args : list ArgDescriptor;
  cd_Stdin : option IODescriptor;
  cd_Stdout : option IODescriptor;
  cd_Examples : list Example;
  cd_Auth : option CommandAuth
}.

Record ToolSchema := {
  schema_SpecVersion : string;
  schema_Name : string;
  schema_Version : string;
  schema_Description : string;
  schema_Commands : list CommandDescriptor;
  schema_Auth : option AuthConfig
}.

Record CommandAnnotation := {
  ann_Args : list ArgDescriptor;
  ann_ArgTypes : gmap string string;
  ann_Stdin : option IODescriptor;
  ann_Stdout : option IODescriptor;
  ann_Examples : list Example;
  ann_Auth : option CommandAuth
}.

(** [opts_Commands] is [None] for a nil map.  An entry that maps a path to
    a nil annotation reads like a missing entry and is not modelled. *)
Record DescribeOptions := {
  opts_Commands : option (gmap string CommandAnnotation);
  opts_Auth : option AuthConfig
}.

(** ** The command framework, as far as the package reads it *)

(** A [pflag.Flag]: [flag_ValueType] is what [f.Value.Type()] returns;
    [flag_Annotations] is [None] for a nil map. *)
Record Flag := {
  flag_Name : string;
  flag_Usage : string;
  flag_ValueType : string;
  flag_DefValue : string;
  flag_Hidden : bool;
  flag_Annotations : option (gmap string (list string))
}.

(** A [pflag.FlagSet]: the flags in the order they were declared, with
    pairwise distinct names, and the [SortFlags] switch, which is on for
    every flag set Cobra creates unless the program turns it off. *)
Record FlagSet := {
  orderedFormal : list Flag;
  SortFlags : bool
}.

(** The order of [sort.Strings] on the flags' names: bytewise
    lexicographic. *)
Definition flagNameLe (f g : Flag) : Prop :=
  String.le (flag_Name f) (flag_Name g).

#[global] Instance flagNameLe_dec : RelDecision flagNameLe.
Proof. intros f g. unfold flagNameLe. apply _. Defined.

#[global] Instance flagNameLe_total : Total flagNameLe.
Proof. intros f g. unfold flagNameLe. apply total, _. Qed.

(** [FlagSet.VisitAll] visits the flags in lexicographical order of their
    names, or in the order of declaration when [SortFlags] is false. *)
Definition VisitAll (fs : FlagSet) : list Flag :=
  if SortFlags fs then merge_sort flagNameLe (orderedFormal fs)
  else orderedFormal fs.

(** [FlagSet.Lookup]: the flag of that name, if any, with its place in the
    set, which stands for the pointer the Go function returns. *)
Definition Lookup (fs : FlagSet) (name : string) : option (nat * Flag) :=
  list_find (λ f, flag_Name f = name) (orderedFormal fs).

(** A [cobra.Command]: [cmd_Name] is what [cmd.Name()] returns,
    [cmd_Flags] what [cmd.Flags()] returns, [cmd_Commands] what
    [cmd.Commands()] returns, and [cmd_Runnable] tells whether the command
    has a [Run] or [RunE] function of its own. *)
Inductive Command := {
  cmd_Use : string;
  cmd_Name : string;
  cmd_Short : string;
  cmd_Long : string;
  cmd_Version : string;
  cmd_Hidden : bool;
  cmd_Runnable : bool;
  cmd_Flags : FlagSet;
  cmd_Commands : list Command
}.

(** ** Flag extraction ([introspect.go]) *)

Definition integerTypes : list string :=
  ["int"; "int8"; "int16"; "int32"; "int64";
   "uint"; "uint8"; "uint16"; "uint32"; "uint64"].

Definition floatTypes : list string := ["float32"; "float64"].

Definition arrayTypes : list string :=
  ["stringSlice"; "intSlice"; "stringArray"; "uintSlice"].

(** [pflagTypeToMTP] maps pflag type strings to MTP type strings. *)
Definition pflagTypeToMTP (f : Flag) : string :=
  let t := flag_ValueType f in
  if decide (t = "bool") then "boolean"
  else if decide (t ∈ integerTypes) then "integer"
  else if decide (t ∈ floatTypes) then "number"
  else if decide (t ∈ arrayTypes) then "array"
  else "string".

(** [flagDefault] returns a typed default value for a flag, or [None]
    (nil) if the default is the zero value for its type. *)
Definition flagDefault (f : Flag) : option any :=
  let t := flag_ValueType f in
  let d := flag_DefValue f in
  if decide (t = "bool") then
    if decide (d = "true") then Some (any_bool true) else None
  else if decide (t ∈ integerTypes) then
    if decide (d = "" ∨ d = "0") then None else Some (any_string d)
  else if decide (t ∈ floatTypes) then
    if decide (d = "" ∨ d = "0") then None else Some (any_string d)
  else
    if decide (d = "" ∨ d = "[]") then None else Some (any_string d).

(** Reading a Go [map[string]bool]: a missing key reads as [false]. *)
Definition lookupBool (m : gmap string bool) (k : string) : bool :=
  default false (m !! k).

Definition skippedFlags : gmap string bool :=
  <["help" := true]> (<["mtp-describe" := true]> (<["version" := true]> ∅)).

(** [f.Annotations[key]] with its presence: nil map and missing key both
    give [None]. *)
Definition flagAnnotation (f : Flag) (key : string) : option (list string) :=
  flag_Annotations f ≫= λ m, m !! key.

Definition BashCompOneRequiredFlag : string :=
  "cobra_annotation_bash_completion_one_required_flag".

(** The descriptor built in the callback of [extractFlags] for a flag that
    is not skipped. *)
Definition flagDescriptor (ann : option CommandAnnotation) (f : Flag) : ArgDescriptor :=
  let typ := pflagTypeToMTP f in
  let typ :=
    match ann with
    | Some a => match ann_ArgTypes a !! flag_Name f with
                | Some override => override
                | None => typ
                end
    | None => typ
    end in
  let required :=
    match flagAnnotation f BashCompOneRequiredFlag with
    | Some (_ :: _) => true
    | _ => false
    end in
  let def := flagDefault f in
  match flagAnnotation f "values" with
  | Some ((_ :: _) as vals) =>
      {| arg_Name := "--" +:+ flag_Name f; arg_Type := "enum";
         arg_Description := flag_Usage f; arg_Required := required;
         arg_Default := def; arg_Values := vals |}
  | _ =>
      {| arg_Name := "--" +:+ flag_Name f; arg_Type := typ;
         arg_Description := flag_Usage f; arg_Required := required;
         arg_Default := def; arg_Values := [] |}
  end.

(** The test at the head of the callback: [true] when [f] is passed over. *)
Definition skipsFlag (f : Flag) : bool :=
  lookupBool skippedFlags (flag_Name f) || flag_Hidden f.

(** One call of the callback: [args] is the slice built so far. *)
Definition visitFlag (ann : option CommandAnnotation)
    (args : list ArgDescriptor) (f : Flag) : list ArgDescriptor :=
  if skipsFlag f then args else args ++ [flagDescriptor ann f].

(** [extractFlags] builds ArgDescriptors from a command's flags. *)
Definition extractFlags (cmd : Command) (ann : option CommandAnnotation) : list ArgDescriptor :=
  foldl (visitFlag ann) [] (VisitAll (cmd_Flags cmd)).

(** ** Positional arguments *)

Definition parseUsePart (args : list ArgDescriptor) (part : string) : list ArgDescriptor :=
  if strings.HasPrefix part "<" && strings.HasSuffix part ">" then
    args ++ [{| arg_Name := strings.Trim part "<>"; arg_Type := "string";
                arg_Description := ""; arg_Required := true;
                arg_Default := None; arg_Values := [] |}]
  else if strings.HasPrefix part "[" && strings.HasSuffix part "]" then
    args ++ [{| arg_Name := strings.Trim part "[]"; arg_Type := "string";
                arg_Description := ""; arg_Required := false;
                arg_Default := None; arg_Values := [] |}]
  else args.

(** [parseUseArgs] extracts positional arg descriptors from a Cobra Use
    string.  Convention: "command <required> [optional]". *)
Definition parseUseArgs (use : string) : list ArgDescriptor :=
  match strings.Fields use with
  | [] | [_] => []
  | _ :: rest => foldl parseUsePart [] rest
  end.

(** ** Commands *)

(** [extractCommand] builds a CommandDescriptor from a single command. *)
(** The positional args of [extractCommand]: annotation overrides Use
    string parsing. *)
Definition positionalArgs (cmd : Command) (ann : option CommandAnnotation)
    : list ArgDescriptor :=
  match ann with
  | Some a => match ann_Args a with
              | _ :: _ => ann_Args a
              | [] => parseUseArgs (cmd_Use cmd)
              end
  | None => parseUseArgs (cmd_Use cmd)
  end.

Definition extractCommand (cmd : Command) (name : string)
    (ann : option CommandAnnotation) : CommandDescriptor :=
  let desc := strings.TrimSpace (cmd_Short cmd) in
  let desc := if decide (desc = "") then strings.TrimSpace (cmd_Long cmd) else desc in
  {| cd_Name := name;
     cd_Description := desc;
     cd_Args := positionalArgs cmd ann ++ extractFlags cmd ann;
     cd_Stdin := ann ≫= ann_Stdin;
     cd_Stdout := ann ≫= ann_Stdout;
     cd_Examples := match ann with Some a => ann_Examples a | None => [] end;
     cd_Auth := ann ≫= ann_Auth |}.

Definition skippedCommands : gmap string bool :=
  <["help" := true]> (<["completion" := true]> ∅).

(** The test of the loop in [visibleSubcommands]: [true] when [sub] is
    passed over. *)
Definition skipsCommand (sub : Command) : bool :=
  cmd_Hidden sub || lookupBool skippedCommands (cmd_Name sub).

(** [visibleSubcommands] returns non-hidden, non-skipped subcommands. *)
Definition visibleSubcommands (cmd : Command) : list Command :=
  foldl (λ visible sub, if skipsCommand sub then visible else visible ++ [sub])
        [] (cmd_Commands cmd).

(** The annotation [walkCommands] picks for a command path. *)
Definition annotationFor (opts : option DescribeOptions) (name : string)
    : option CommandAnnotation :=
  opts ≫= λ o, opts_Commands o ≫= λ m, m !! name.

(** The name of a subcommand's path below [prefix]. *)
Definition subPath (prefix : string) (sub : Command) : string :=
  if decide (prefix = "") then cmd_Name sub else prefix +:+ " " +:+ cmd_Name sub.

(** The name a leaf is described under. *)
Definition leafName (prefix : string) : string :=
  if decide (prefix = "") then "_root" else prefix.

(** [walkCommands] recursively extracts CommandDescriptors from a command
    tree.  The recursion is on the tree, so the loop over the visible
    subcommands runs over [cmd_Commands] and passes over the subcommands
    that [visibleSubcommands] leaves out; [walkCommands_eq] below gives it
    back in the shape of the source. *)
Fixpoint walkCommands (cmd : Command) (prefix : string) (opts : option DescribeOptions)
    {struct cmd} : list CommandDescriptor :=
  match visibleSubcommands cmd with
  | [] =>
      let name := leafName prefix in
      [extractCommand cmd name (annotationFor opts name)]
  | _ =>
      foldl (λ commands sub,
               if skipsCommand sub then commands
               else commands ++ walkCommands sub (subPath prefix sub) opts)
            [] (cmd_Commands cmd)
  end.

(** ** Entry points ([mtp.go]) *)

Definition MTPSpecVersion : string := "2026-02-07".

(** [Describe] extracts a ToolSchema from a command tree. *)
Definition Describe (root : Command) (opts : option DescribeOptions) : ToolSchema :=
  let desc := strings.TrimSpace (cmd_Short root) in
  let desc := if decide (desc = "") then strings.TrimSpace (cmd_Long root) else desc in
  {| schema_SpecVersion := MTPSpecVersion;
     schema_Name := cmd_Name root;
     schema_Version := cmd_Version root;
     schema_Description := desc;
     schema_Commands := walkCommands root "" opts;
     schema_Auth := opts ≫= opts_Auth |}.

Definition withAnnotations (f : Flag) (m : gmap string (list string)) : Flag :=
  {| flag_Name := flag_Name f; flag_Usage := flag_Usage f;
     flag_ValueType := flag_ValueType f; flag_DefValue := flag_DefValue f;
     flag_Hidden := flag_Hidden f; flag_Annotations := Some m |}.

Definition withFlags (cmd : Command) (fs : FlagSet) : Command :=
  {| cmd_Use := cmd_Use cmd; cmd_Name := cmd_Name cmd; cmd_Short := cmd_Short cmd;
     cmd_Long := cmd_Long cmd; cmd_Version := cmd_Version cmd;
     cmd_Hidden := cmd_Hidden cmd; cmd_Runnable := cmd_Runnable cmd;
     cmd_Flags := fs; cmd_Commands := cmd_Commands cmd |}.

(** [EnumValues] annotates a flag with allowed enum values.  The Go
    function changes the flag in place and returns nothing; here it
    returns the command after the call. *)
Definition EnumValues (cmd : Command) (flagName : string) (values : list string) : Command :=
  match Lookup (cmd_Flags cmd) flagName with
  | None => cmd
  | Some (i, f) =>
      let m := default ∅ (flag_Annotations f) in
      let f' := withAnnotations f (<["values" := values]> m) in
      withFlags cmd {| orderedFormal := <[i := f']> (orderedFormal (cmd_Flags cmd));
                       SortFlags := SortFlags (cmd_Flags cmd) |}
  end.

(** ** Notions the properties are stated with *)

(** [VisiblePath cmd path node]: [node] is reached from [cmd] by going
    down through [path], each step to a visible subcommand; [node] is the
    last command of [path], or [cmd] itself when [path] is empty. *)
Inductive VisiblePath : Command → list Command → Command → Prop :=
  | vp_here cmd : VisiblePath cmd [] cmd
  | vp_down cmd sub path node :
      sub ∈ visibleSubcommands cmd →
      VisiblePath sub path node →
      VisiblePath cmd (sub :: path) node.

(** The path name accumulated along [path], starting from [prefix]. *)
Definition pathName (prefix : string) (path : list Command) : string :=
  foldl subPath prefix path.

(** [cmd] with its subcommands, its run function or, for a descriptor, its
    type replaced. *)
Definition withCommands (cmd : Command) (subs : list Command) : Command :=
  {| cmd_Use := cmd_Use cmd; cmd_Name := cmd_Name cmd; cmd_Short := cmd_Short cmd;
     cmd_Long := cmd_Long cmd; cmd_Version := cmd_Version cmd;
     cmd_Hidden := cmd_Hidden cmd; cmd_Runnable := cmd_Runnable cmd;
     cmd_Flags := cmd_Flags cmd; cmd_Commands := subs |}.

Definition withRunnable (cmd : Command) (run : bool) : Command :=
  {| cmd_Use := cmd_Use cmd; cmd_Name := cmd_Name cmd; cmd_Short := cmd_Short cmd;
     cmd_Long := cmd_Long cmd; cmd_Version := cmd_Version cmd;
     cmd_Hidden := cmd_Hidden cmd; cmd_Runnable := run;
     cmd_Flags := cmd_Flags cmd; cmd_Commands := cmd_Commands cmd |}.

(** The type strings of pflag's slice and array values: what [Type()]
    returns for a flag declared with [BoolSlice], [DurationSlice],
    [Float32Slice], [Float64Slice], [Int32Slice], [Int64Slice], [IntSlice],
    [IPSlice], [StringArray], [StringSlice] or [UintSlice]. *)
Definition pflagSliceTypes : list string :=
  ["boolSlice"; "durationSlice"; "float32Slice"; "float64Slice"; "int32Slice";
   "int64Slice"; "intSlice"; "ipSlice"; "stringArray"; "stringSlice"; "uintSlice"].

Definition withType (a : ArgDescriptor) (typ : string) : ArgDescriptor :=
  {| arg_Name := arg_Name a; arg_Type := typ; arg_Description := arg_Description a;
     arg_Required := arg_Required a; arg_Default := arg_Default a;
     arg_Values := arg_Values a |}.

(** [Descends cmd path node]: [path] leads from [cmd] down to [node], each
    command on it a subcommand of the one before. *)
Inductive Descends : Command → list Command → Command → Prop :=
  | descends_here cmd : Descends cmd [] cmd
  | descends_down cmd sub path node :
      sub ∈ cmd_Commands cmd →
      Descends sub path node →
      Descends cmd (sub :: path) node.

(** [prune cmd] is [cmd] without the subcommands that are hidden or have
    a reserved name, at every depth; the root stays. *)
Fixpoint prune (cmd : Command) : Command :=
  withCommands cmd
    (flat_map (λ sub, if skipsCommand sub then [] else [prune sub]) (cmd_Commands cmd)).

(** ** Builders for commands and flags, as the tests build them *)

Module Tests.

Definition mkFlag (name typ def usage : string) : Flag :=
  {| flag_Name := name; flag_Usage := usage; flag_ValueType := typ;
     flag_DefValue := def; flag_Hidden := false; flag_Annotations := None |}.

Definition hide (f : Flag) : Flag :=
  {| flag_Name := flag_Name f; flag_Usage := flag_Usage f;
     flag_ValueType := flag_ValueType f; flag_DefValue := flag_DefValue f;
     flag_Hidden := true; flag_Annotations := flag_Annotations f |}.

(** [&cobra.Command{Use: use, Short: short}] with flags and subcommands
    added; [name] is the first word of [use]. *)
Definition mkCommand (use name short : string) (flags : list Flag)
    (subs : list Command) : Command :=
  {| cmd_Use := use; cmd_Name := name; cmd_Short := short; cmd_Long := "";
     cmd_Version := ""; cmd_Hidden := false; cmd_Runnable := false;
     cmd_Flags := {| orderedFormal := flags; SortFlags := true |};
     cmd_Commands := subs |}.

Definition hidden (c : Command) : Command :=
  {| cmd_Use := cmd_Use c; cmd_Name := cmd_Name c; cmd_Short := cmd_Short c;
     cmd_Long := cmd_Long c; cmd_Version := cmd_Version c; cmd_Hidden := true;
     cmd_Runnable := cmd_Runnable c; cmd_Flags := cmd_Flags c;
     cmd_Commands := cmd_Commands c |}.

Definition noAnnotation : CommandAnnotation :=
  {| ann_Args := []; ann_ArgTypes := ∅; ann_Stdin := None; ann_Stdout := None;
     ann_Examples := []; ann_Auth := None |}.

Definition names (s : ToolSchema) : list string := cd_Name <$> schema_Commands s.

Definition argsOf (s : ToolSchema) : list (list (string * string)) :=
  (λ cd, (λ a, (arg_Name a, arg_Type a)) <$> cd_Args cd) <$> schema_Commands s.

Definition rootAnnotation (a : CommandAnnotation) : option DescribeOptions :=
  Some {| opts_Commands := Some {[ "_root" := a ]}; opts_Auth := None |}.

End Tests.

(** ** Sample commands and annotations *)

(** The nested tool of the tests: [tool] holds the group [db], which can
    run itself and holds the leaf [migrate]. *)
Definition nestedTool : Command :=
  Tests.mkCommand "tool" "tool" "" []
    [withRunnable
       (Tests.mkCommand "db" "db" "" []
          [Tests.mkCommand "migrate" "migrate" "Run migrations" [] []]) true].

(** A command whose flags are declared out of alphabetical order:
    [cmd.Flags().Bool("verbose", ...)] and then [cmd.Flags().Bool("all", ...)]. *)
Definition reverseDeclared : Command :=
  Tests.mkCommand "list <dir>" "list" "List a directory"
    [Tests.mkFlag "verbose" "bool" "false" "Verbose output";
     Tests.mkFlag "all" "bool" "false" "Show all entries"] [].

(** The [convert] command of the tests, its [format] flag given enum
    values, with an annotation that gives its positional args and its
    standard input. *)
Definition convertTool : Command :=
  Tests.mkCommand "tool" "tool" "" []
    [EnumValues
       (Tests.mkCommand "convert <input>" "convert" "Convert"
          [Tests.mkFlag "format" "string" "json" "Output format"] [])
       "format" ["json"; "csv"; "yaml"]].

Definition convertOptions : option DescribeOptions :=
  Some {| opts_Commands := Some {[ "convert" :=
            {| ann_Args := [{| arg_Name := "input_file"; arg_Type := "string";
                               arg_Description := "Input file path";
                               arg_Required := true; arg_Default := None;
                               arg_Values := [] |}];
               ann_ArgTypes := ∅;
               ann_Stdin := Some {| io_ContentType := "text/csv";
                                    io_Description := "CSV input"; io_Schema := [] |};
               ann_Stdout := None; ann_Examples := []; ann_Auth := None |} ]};
          opts_Auth := None |}.

(** An annotation under which the string flag [mode] is typed "enum" by an
    [ArgTypes] override, and one that supplies a positional arg of type
    "enum"; neither gives values. *)
Definition modeTool : Command :=
  Tests.mkCommand "test" "test" "" [Tests.mkFlag "mode" "string" "" "Mode"] [].

Definition enumOverride : option DescribeOptions :=
  Some {| opts_Commands := Some {[ "_root" :=
            {| ann_Args := []; ann_ArgTypes := {[ "mode" := "enum" ]};
               ann_Stdin := None; ann_Stdout := None; ann_Examples := [];
               ann_Auth := None |} ]};
          opts_Auth := None |}.

Definition enumPositional : option DescribeOptions :=
  Some {| opts_Commands := Some {[ "_root" :=
            {| ann_Args := [{| arg_Name := "level"; arg_Type := "enum";
                               arg_Description := ""; arg_Required := true;
                               arg_Default := None; arg_Values := [] |}];
               ann_ArgTypes := ∅;
               ann_Stdin := None; ann_Stdout := None; ann_Examples := [];
               ann_Auth := None |} ]};
          opts_Auth := None |}.

(** A tool with a hidden subcommand, a subcommand named "help", and a
    visible subcommand that has a hidden flag and a flag named "help". *)
Definition visibleCommand : Command :=
  Tests.mkCommand "visible" "visible" "Visible"
    [Tests.mkFlag "name" "string" "" "Name";
     Tests.hide (Tests.mkFlag "secret" "string" "" "Secret flag");
     Tests.mkFlag "help" "bool" "false" "help for visible"] [].

Definition screenedTool : Command :=
  Tests.mkCommand "tool" "tool" "" []
    [visibleCommand;
     Tests.hidden (Tests.mkCommand "hidden" "hidden" "Hidden" [] []);
     Tests.mkCommand "help" "help" "Help about any command" [] []].

(** The [format] flag of the tests, with an [ArgTypes] override that
    would make it an integer. *)
Definition formatCommand : Command :=
  Tests.mkCommand "test" "test" "" [Tests.mkFlag "format" "string" "json" "Output format"] [].

Definition formatAsInteger : CommandAnnotation :=
  {| ann_Args := []; ann_ArgTypes := {[ "format" := "integer" ]};
     ann_Stdin := None; ann_Stdout := None; ann_Examples := []; ann_Auth := None |}.

(** A tool whose author wrote a [help] command of their own, with flags,
    a subcommand and a run function. *)
Definition ownHelp : Command :=
  withRunnable
    (Tests.mkCommand "help <topic>" "help" "Explain a topic"
       [Tests.mkFlag "pager" "bool" "true" "Page the output"]
       [Tests.mkCommand "topics" "topics" "List the topics" [] []]) true.

(** ** Further notions and samples *)

(** The type tags of the schema. *)
Definition typeTags : list string :=
  ["boolean"; "integer"; "number"; "array"; "string"; "enum"].

(** An annotation filed under the path of the group [db] of [nestedTool],
    which is not the name of any descriptor. *)
Definition groupAnnotated : option DescribeOptions :=
  Some {| opts_Commands := Some {[ "db" :=
            {| ann_Args := []; ann_ArgTypes := ∅;
               ann_Stdin := Some {| io_ContentType := "text/plain";
                                    io_Description := "Statements"; io_Schema := [] |};
               ann_Stdout := None; ann_Examples := []; ann_Auth := None |} ]};
          opts_Auth := None |}.

(** What [EnumValues] makes of the flag it finds. *)
Definition setValues (values : list string) (f : Flag) : Flag :=
  withAnnotations f (<["values" := values]> (default ∅ (flag_Annotations f))).

(** [FlagSet.AddFlag] on a name the set does not have yet: the flag goes
    to the end of the declared flags. *)
Definition AddFlag (fs : FlagSet) (f : Flag) : FlagSet :=
  {| orderedFormal := orderedFormal fs ++ [f]; SortFlags := SortFlags fs |}.

(** The flag that [WithDescribe] declares with [BoolVar]. *)
Definition describeFlag : Flag :=
  {| flag_Name := "mtp-describe";
     flag_Usage := "Output machine-readable JSON schema for this tool";
     flag_ValueType := "bool"; flag_DefValue := "false";
     flag_Hidden := false; flag_Annotations := None |}.

(** A command with two flags, one of them required. *)
Definition fetchCommand : Command :=
  Tests.mkCommand "fetch <url>" "fetch" "Fetch data"
    [withAnnotations (Tests.mkFlag "token" "string" "" "Auth token")
       {[ BashCompOneRequiredFlag := ["true"] ]};
     Tests.mkFlag "format" "string" "json" "Output format"] [].

(** A name without a space in it. *)
Fixpoint spaceFree (s : string) : Prop :=
  match s with
  | EmptyString => True
  | String c s' => c ≠ " "%char ∧ spaceFree s'
  end.

(** [WellNamed cmd]: at [cmd] and at every command below it that the walk
    reaches, the visible subcommands have pairwise distinct names, none
    empty and none with a space in it. *)
Inductive WellNamed : Command → Prop :=
  | well_named cmd :
      NoDup (cmd_Name <$> visibleSubcommands cmd) →
      Forall (λ sub, cmd_Name sub ≠ "" ∧ spaceFree (cmd_Name sub) ∧ WellNamed sub)
             (visibleSubcommands cmd) →
      WellNamed cmd.

(** [name] is [p] or goes on after [p] with a space. *)
Definition Under (p name : string) : Prop :=
  ∃ t, name = p +:+ t ∧ (t = "" ∨ ∃ rest, t = String " " rest).

(** A tool with two groups. *)
Definition twoGroups : Command :=
  Tests.mkCommand "tool" "tool" "" []
    [Tests.mkCommand "db" "db" "" []
       [Tests.mkCommand "migrate" "migrate" "Run migrations" [] [];
        Tests.mkCommand "seed" "seed" "Seed the tables" [] []];
     Tests.mkCommand "cache" "cache" "" []
       [Tests.mkCommand "clear" "clear" "Clear the cache" [] []]].

(** * Properties *)

(** ** The [strings] functions and the cases of [mtp_test.go], run on the model *)

Example Fields_convert :
  strings.Fields "convert <input>  [output]" = ["convert"; "<input>"; "[output]"].
Proof. vm_compute. reflexivity. Qed.

Example TrimSpace_ex : strings.TrimSpace "  a tool " = "a tool".
Proof. vm_compute. reflexivity. Qed.

Example Trim_ex : strings.Trim "<<input>" "<>" = "input".
Proof. vm_compute. reflexivity. Qed.

(** A no-break space, U+00A0, separates fields as well. *)
Example Fields_nbsp :
  strings.Fields (String "a" (String "194" (String "160" "b"))) = ["a"; "b"].
Proof. vm_compute. reflexivity. Qed.

Example parseUseArgs_brackets :
  arg_Name <$> parseUseArgs "get <<key>> [] plain <open [closed]" = ["key"; ""; "closed"].
Proof. vm_compute. reflexivity. Qed.

Module TestCases.

Import Tests.

Example TestFlagBoolean :
  argsOf (Describe (mkCommand "test" "test" ""
                      [mkFlag "verbose" "bool" "false" "Enable verbose output"] []) None)
  = [[("--verbose", "boolean")]].
Proof. vm_compute. reflexivity. Qed.

Example TestFlagEnum :
  (λ a, (arg_Name a, arg_Type a, arg_Values a)) <$>
    flat_map cd_Args (schema_Commands (Describe
      (EnumValues (mkCommand "test" "test" ""
                     [mkFlag "format" "string" "json" "Output format"] [])
                  "format" ["json"; "csv"; "yaml"]) None))
  = [("--format", "enum", ["json"; "csv"; "yaml"])].
Proof. vm_compute. reflexivity. Qed.

Example TestFlagTypeOverrideFromAnnotation :
  argsOf (Describe (mkCommand "test" "test" ""
                      [mkFlag "count" "string" "0" "Item count"] [])
            (rootAnnotation
               {| ann_Args := []; ann_ArgTypes := {[ "count" := "integer" ]};
                  ann_Stdin := None; ann_Stdout := None; ann_Examples := [];
                  ann_Auth := None |}))
  = [[("--count", "integer")]].
Proof. vm_compute. reflexivity. Qed.

Example TestFlagDefault :
  (λ a, (arg_Name a, arg_Default a)) <$>
    flat_map cd_Args (schema_Commands (Describe
      (mkCommand "test" "test" ""
         [mkFlag "format" "string" "json" "Output format";
          mkFlag "verbose" "bool" "false" "Verbose";
          mkFlag "color" "bool" "true" "Colorize output"] []) None))
  = [("--color", Some (any_bool true)); ("--format", Some (any_string "json"));
     ("--verbose", None)].
Proof. vm_compute. reflexivity. Qed.

(** [cmd.MarkFlagRequired] files ["true"] under Cobra's annotation key. *)
Example TestFlagRequired :
  (λ a, (arg_Name a, arg_Required a)) <$>
    flat_map cd_Args (schema_Commands (Describe
      (mkCommand "test" "test" ""
         [withAnnotations (mkFlag "token" "string" "" "Auth token")
            {[ BashCompOneRequiredFlag := ["true"] ]}] []) None))
  = [("--token", true)].
Proof. vm_compute. reflexivity. Qed.

Example TestFlagHiddenExcluded :
  argsOf (Describe (mkCommand "test" "test" ""
                      [mkFlag "visible" "string" "" "Visible flag";
                       hide (mkFlag "secret" "string" "" "Secret flag")] []) None)
  = [[("--visible", "string")]].
Proof. vm_compute. reflexivity. Qed.

Example TestSingleCommand :
  names (Describe (mkCommand "tool" "tool" "A tool" [] []) None) = ["_root"].
Proof. vm_compute. reflexivity. Qed.

Example TestDeeplyNestedCommands :
  names (Describe
           (mkCommand "tool" "tool" "" []
              [mkCommand "db" "db" "" []
                 [mkCommand "migrate" "migrate" "Run migrations" [] []]]) None)
  = ["db migrate"].
Proof. vm_compute. reflexivity. Qed.

Example TestHiddenCommandsExcluded :
  names (Describe
           (mkCommand "tool" "tool" "" []
              [mkCommand "visible" "visible" "Visible" [] [];
               hidden (mkCommand "hidden" "hidden" "Hidden" [] [])]) None)
  = ["visible"].
Proof. vm_compute. reflexivity. Qed.

Example TestPositionalArgsFromUse :
  (λ a, (arg_Name a, arg_Type a, arg_Required a)) <$>
    flat_map cd_Args (schema_Commands (Describe
      (mkCommand "convert <input> [output]" "convert" "Convert" [] []) None))
  = [("input", "string", true); ("output", "string", false)].
Proof. vm_compute. reflexivity. Qed.

Example TestPositionalArgsWithFlags :
  argsOf (Describe (mkCommand "convert <input>" "convert" "Convert"
                      [mkFlag "format" "string" "json" "Output format"] []) None)
  = [[("input", "string"); ("--format", "string")]].
Proof. vm_compute. reflexivity. Qed.

End TestCases.

(** ** The two tables of reserved names *)

Lemma skippedFlags_spec (name : string) :
  lookupBool skippedFlags name = true ↔
  name = "help" ∨ name = "mtp-describe" ∨ name = "version".
Proof.
  unfold lookupBool, skippedFlags. split.
  - intros H.
    destruct (decide (name = "help")) as [->|?]; [by left|].
    destruct (decide (name = "mtp-describe")) as [->|?]; [by right; left|].
    destruct (decide (name = "version")) as [->|?]; [by right; right|].
    rewrite !lookup_insert_ne, lookup_empty in H by done. done.
  - intros [-> | [-> | ->]]; reflexivity.
Qed.

Lemma skippedCommands_spec (name : string) :
  lookupBool skippedCommands name = true ↔ name = "help" ∨ name = "completion".
Proof.
  unfold lookupBool, skippedCommands. split.
  - intros H.
    destruct (decide (name = "help")) as [->|?]; [by left|].
    destruct (decide (name = "completion")) as [->|?]; [by right|].
    rewrite !lookup_insert_ne, lookup_empty in H by done. done.
  - intros [-> | ->]; reflexivity.
Qed.

(** ** The loops as filters and maps *)

Lemma visitFlag_foldl ann (fl : list Flag) (args : list ArgDescriptor) :
  foldl (visitFlag ann) args fl =
  args ++ (flagDescriptor ann <$> filter (λ f, skipsFlag f = false) fl).
Proof.
  revert args. induction fl as [|f fl IH]; intros args; simpl.
  - by rewrite app_nil_r.
  - rewrite IH. unfold visitFlag. rewrite filter_cons.
    destruct (skipsFlag f) eqn:E.
    + by rewrite decide_False by done.
    + rewrite decide_True by done. by rewrite fmap_cons, <- app_assoc.
Qed.

Lemma extractFlags_eq cmd ann :
  extractFlags cmd ann =
  flagDescriptor ann <$> filter (λ f, skipsFlag f = false) (VisitAll (cmd_Flags cmd)).
Proof. unfold extractFlags. by rewrite visitFlag_foldl. Qed.

Lemma visibleSubcommands_eq cmd :
  visibleSubcommands cmd = filter (λ sub, skipsCommand sub = false) (cmd_Commands cmd).
Proof.
  unfold visibleSubcommands.
  enough (∀ l acc,
    foldl (λ visible sub, if skipsCommand sub then visible else visible ++ [sub]) acc l
    = acc ++ filter (λ sub, skipsCommand sub = false) l) as H by apply H.
  induction l as [|sub l IH]; intros acc; simpl.
  - by rewrite app_nil_r.
  - rewrite IH, filter_cons. destruct (skipsCommand sub) eqn:E.
    + by rewrite decide_False by done.
    + rewrite decide_True by done. by rewrite <- app_assoc.
Qed.

Lemma walk_loop_eq (walk : Command → list CommandDescriptor) (l : list Command)
    (acc : list CommandDescriptor) :
  foldl (λ commands sub, if skipsCommand sub then commands else commands ++ walk sub) acc l
  = foldl (λ commands sub, commands ++ walk sub) acc
          (filter (λ sub, skipsCommand sub = false) l).
Proof.
  revert acc. induction l as [|sub l IH]; intros acc; simpl; [done|].
  rewrite filter_cons. destruct (skipsCommand sub) eqn:E.
  - rewrite decide_False by done. apply IH.
  - rewrite decide_True by done. simpl. apply IH.
Qed.

(** [walkCommands] in the shape of the source: a leaf when no subcommand
    is visible, else the loop over the visible subcommands. *)
Lemma walkCommands_eq cmd prefix opts :
  walkCommands cmd prefix opts =
  match visibleSubcommands cmd with
  | [] => [extractCommand cmd (leafName prefix) (annotationFor opts (leafName prefix))]
  | visible =>
      foldl (λ commands sub, commands ++ walkCommands sub (subPath prefix sub) opts)
            [] visible
  end.
Proof.
  destruct cmd as [use name short long version hid run fs subs].
  cbn [walkCommands].
  destruct (visibleSubcommands _) as [|v vs] eqn:E; [done|].
  rewrite walk_loop_eq with (walk := λ sub, walkCommands sub (subPath prefix sub) opts).
  rewrite <- E, visibleSubcommands_eq. done.
Qed.

Lemma foldl_app_flat {A B} (f : A → list B) (l : list A) (acc : list B) :
  foldl (λ out x, out ++ f x) acc l = acc ++ flat_map f l.
Proof.
  revert acc. induction l as [|x l IH]; intros acc; simpl.
  - by rewrite app_nil_r.
  - by rewrite IH, <- app_assoc.
Qed.

(** The same with the loop read as a concatenation. *)
Lemma walkCommands_group cmd prefix opts :
  visibleSubcommands cmd ≠ [] →
  walkCommands cmd prefix opts =
  flat_map (λ sub, walkCommands sub (subPath prefix sub) opts) (visibleSubcommands cmd).
Proof.
  intros H. rewrite walkCommands_eq.
  destruct (visibleSubcommands cmd) as [|v vs]; [done|].
  by rewrite foldl_app_flat.
Qed.

Lemma walkCommands_leaf cmd prefix opts :
  visibleSubcommands cmd = [] →
  walkCommands cmd prefix opts =
  [extractCommand cmd (leafName prefix) (annotationFor opts (leafName prefix))].
Proof. intros H. by rewrite walkCommands_eq, H. Qed.

(** Induction on a command tree, with the hypothesis for every subcommand. *)
Lemma Command_tree_ind (P : Command → Prop) :
  (∀ cmd, Forall P (cmd_Commands cmd) → P cmd) → ∀ cmd, P cmd.
Proof.
  intros step. fix IH 1. intros cmd. apply step.
  destruct cmd as [use name short long version hid run fs subs]. simpl.
  induction subs as [|sub subs IHsubs]; constructor; [apply IH | apply IHsubs].
Qed.

Lemma skipsCommand_false sub :
  skipsCommand sub = false ↔
  cmd_Hidden sub = false ∧ cmd_Name sub ≠ "help" ∧ cmd_Name sub ≠ "completion".
Proof.
  unfold skipsCommand. rewrite orb_false_iff.
  pose proof (skippedCommands_spec (cmd_Name sub)) as Hs.
  destruct (lookupBool skippedCommands (cmd_Name sub)).
  - split; [by intros [_ ?]|]. intros (_ & ? & ?).
    destruct Hs as [Hs _]. destruct (Hs eq_refl); done.
  - split; [|by intros [? _]]. intros [Hh _]. split; [done|].
    destruct Hs as [_ Hs]. split; intros E; by discriminate Hs; auto.
Qed.

Lemma elem_of_visibleSubcommands cmd sub :
  sub ∈ visibleSubcommands cmd ↔
  sub ∈ cmd_Commands cmd ∧ cmd_Hidden sub = false ∧
  cmd_Name sub ≠ "help" ∧ cmd_Name sub ≠ "completion".
Proof.
  rewrite visibleSubcommands_eq, list_elem_of_filter, skipsCommand_false. tauto.
Qed.

(** ** The walker (section 4.3) *)

Lemma string_app_assoc (a b c : string) : (a +:+ b) +:+ c = a +:+ (b +:+ c).
Proof.
  induction a as [|x a IH]; [done|].
  change (String x ((a +:+ b) +:+ c) = String x (a +:+ (b +:+ c))). by rewrite IH.
Qed.

Lemma string_app_nonempty (a b : string) : a ≠ "" → a +:+ b ≠ "".
Proof. destruct a; [done | discriminate]. Qed.

Lemma concat_join_head (p n : string) (l : list string) :
  String.concat " " ((p +:+ " " +:+ n) :: l) = String.concat " " (p :: n :: l).
Proof.
  destruct l as [|x l]; cbn [String.concat]; [done|].
  by rewrite !string_app_assoc.
Qed.

Lemma pathName_concat_from (prefix : string) (path : list Command) :
  prefix ≠ "" →
  pathName prefix path = String.concat " " (prefix :: (cmd_Name <$> path)).
Proof.
  revert prefix. induction path as [|c path IH]; intros prefix Hne; [done|].
  unfold pathName in *. cbn [foldl]. unfold subPath at 2.
  rewrite decide_False by done.
  rewrite IH by (by apply string_app_nonempty).
  rewrite fmap_cons. apply concat_join_head.
Qed.

(** From the root, where the prefix is empty, the accumulated name is the
    names on the path joined by single spaces. *)
Lemma pathName_concat (c : Command) (path : list Command) :
  cmd_Name c ≠ "" →
  pathName "" (c :: path) = String.concat " " (cmd_Name <$> (c :: path)).
Proof.
  intros Hne. unfold pathName. cbn [foldl]. unfold subPath at 2.
  rewrite decide_True by done. by apply pathName_concat_from.
Qed.

Lemma walkCommands_sound cmd :
  ∀ prefix opts cd,
    cd ∈ walkCommands cmd prefix opts →
    ∃ path node,
      VisiblePath cmd path node ∧ visibleSubcommands node = [] ∧
      cd_Name cd = leafName (pathName prefix path) ∧
      cd = extractCommand node (cd_Name cd) (annotationFor opts (cd_Name cd)).
Proof.
  induction cmd as [cmd IH] using Command_tree_ind. intros prefix opts cd Hin.
  destruct (visibleSubcommands cmd) as [|v vs] eqn:E.
  - rewrite walkCommands_leaf in Hin by done.
    apply list_elem_of_singleton in Hin as ->.
    exists [], cmd. split_and!; [constructor | done | done | done].
  - rewrite walkCommands_group in Hin by (by rewrite E).
    apply list_elem_of_In, in_flat_map in Hin as (sub & Hsub & Hcd).
    apply list_elem_of_In in Hsub, Hcd.
    assert (sub ∈ cmd_Commands cmd) as Hc
      by (by apply elem_of_visibleSubcommands in Hsub as [? _]).
    rewrite Forall_forall in IH.
    destruct (IH sub Hc _ _ _ Hcd) as (path & node & Hp & Hleaf & Hname & Hcd').
    exists (sub :: path), node. split_and!; [by econstructor | done | done | done].
Qed.

Lemma walkCommands_complete cmd path node :
  VisiblePath cmd path node →
  ∀ prefix opts,
    visibleSubcommands node = [] →
    let name := leafName (pathName prefix path) in
    extractCommand node name (annotationFor opts name) ∈ walkCommands cmd prefix opts.
Proof.
  induction 1 as [cmd | cmd sub path node Hsub Hp IH]; intros prefix opts Hleaf; simpl.
  - rewrite walkCommands_leaf by done. apply list_elem_of_here.
  - rewrite walkCommands_group by (intros E; rewrite E in Hsub; by apply elem_of_nil in Hsub).
    apply list_elem_of_In, in_flat_map. exists sub. split.
    + by apply list_elem_of_In.
    + apply list_elem_of_In. by apply IH.
Qed.

Lemma walkCommands_withRunnable cmd run prefix opts :
  walkCommands (withRunnable cmd run) prefix opts = walkCommands cmd prefix opts.
Proof. by rewrite !walkCommands_eq. Qed.

(** C1. The walker describes exactly the commands that have no visible
    (non-hidden, non-reserved) subcommand.  Every descriptor it emits is
    that of such a command, reached from the start through visible
    subcommands, and is named by the path accumulated on the way, or
    "_root" when that path is empty; every such command is described; a
    command with a visible subcommand yields only what its visible
    subcommands yield, whether or not it can run itself; and from the
    root the accumulated path is the names joined by single spaces. *)
Theorem walkCommands_describes_leaves :
  ∀ (cmd : Command) (prefix : string) (opts : option DescribeOptions),
    (∀ cd, cd ∈ walkCommands cmd prefix opts →
       ∃ path node,
         VisiblePath cmd path node ∧ visibleSubcommands node = [] ∧
         cd_Name cd = (if decide (pathName prefix path = "") then "_root"
                       else pathName prefix path) ∧
         cd = extractCommand node (cd_Name cd) (annotationFor opts (cd_Name cd))) ∧
    (∀ path node,
       VisiblePath cmd path node → visibleSubcommands node = [] →
       ∃ cd, cd ∈ walkCommands cmd prefix opts ∧
             cd = extractCommand node (leafName (pathName prefix path))
                    (annotationFor opts (leafName (pathName prefix path)))) ∧
    (visibleSubcommands cmd ≠ [] →
       ∀ run,
         walkCommands (withRunnable cmd run) prefix opts =
         flat_map (λ sub, walkCommands sub (subPath prefix sub) opts)
                  (visibleSubcommands cmd)) ∧
    (∀ sub, subPath prefix sub =
            if decide (prefix = "") then cmd_Name sub
            else prefix +:+ " " +:+ cmd_Name sub) ∧
    (∀ c path, cmd_Name c ≠ "" →
       pathName "" (c :: path) = String.concat " " (cmd_Name <$> (c :: path))).
Proof.
  intros cmd prefix opts. split_and!.
  - intros cd Hin. apply walkCommands_sound in Hin. exact Hin.
  - intros path node Hp Hleaf. eexists. split; [|reflexivity].
    by apply walkCommands_complete.
  - intros Hne run. rewrite walkCommands_withRunnable. by apply walkCommands_group.
  - done.
  - apply pathName_concat.
Qed.

Lemma walkCommands_describes_leaves_witness :
  walkCommands nestedTool "" None =
  flat_map (λ sub, walkCommands sub (subPath "" sub) None) (visibleSubcommands nestedTool)
  ∧ cd_Name <$> walkCommands nestedTool "" None = ["db migrate"].
Proof.
  split.
  - apply (proj1 (proj2 (proj2 (walkCommands_describes_leaves nestedTool "" None)))
             ltac:(vm_compute; discriminate) false).
  - vm_compute. reflexivity.
Defined.

(** ** Argument order (sections 3 and 4.4) *)

(** Against C2 as stated: the flags of [reverseDeclared] are described in
    the order of their names, not in the order of their declaration. *)
Lemma flags_in_declaration_order_fails :
  flag_Name <$> orderedFormal (cmd_Flags reverseDeclared) = ["verbose"; "all"] ∧
  arg_Name <$> cd_Args (extractCommand reverseDeclared "_root" None)
    = ["dir"; "--all"; "--verbose"] ∧
  cd_Args (extractCommand reverseDeclared "_root" None) ≠
    positionalArgs reverseDeclared None ++
    (flagDescriptor None <$>
       filter (λ f, skipsFlag f = false) (orderedFormal (cmd_Flags reverseDeclared))).
Proof. vm_compute. split_and!; [reflexivity | reflexivity | discriminate]. Qed.

(** C2, amended. The args of a descriptor are the positional args first,
    then the descriptors of the command's flags that are not passed over,
    in the order in which the flag set enumerates them: a rearrangement
    of the declared flags that ascends by name when the set sorts its
    flags (the default), and the declaration order itself when it does
    not. *)
Theorem args_positional_then_flags :
  ∀ (cmd : Command) (name : string) (ann : option CommandAnnotation),
    cd_Args (extractCommand cmd name ann) =
      positionalArgs cmd ann ++
      (flagDescriptor ann <$>
         filter (λ f, skipsFlag f = false) (VisitAll (cmd_Flags cmd))) ∧
    VisitAll (cmd_Flags cmd) ≡ₚ orderedFormal (cmd_Flags cmd) ∧
    (if SortFlags (cmd_Flags cmd)
     then Sorted flagNameLe (VisitAll (cmd_Flags cmd))
     else VisitAll (cmd_Flags cmd) = orderedFormal (cmd_Flags cmd)).
Proof.
  intros cmd name ann. split_and!.
  - cbn [extractCommand cd_Args]. by rewrite extractFlags_eq.
  - unfold VisitAll. destruct (SortFlags _); [apply merge_sort_Permutation | done].
  - unfold VisitAll. destruct (SortFlags _); [|done].
    apply Sorted_merge_sort, _.
Qed.

(** ** Type tags (section 4.1) *)

(** Closes a goal from hypotheses on a type string that exclude each
    other. *)
Ltac solve_kinds :=
  try intro;
  unfold integerTypes, floatTypes, arrayTypes in *;
  repeat match goal with
         | H : _ ∈ _ :: _ |- _ => apply elem_of_cons in H as [H|H]
         | H : _ ∈ [] |- _ => by apply elem_of_nil in H
         end;
  first [congruence | done].

(** What [pflagTypeToMTP] answers, by the flag's type string. *)
Lemma pflagTypeToMTP_spec (f : Flag) :
  (flag_ValueType f = "bool" → pflagTypeToMTP f = "boolean") ∧
  (flag_ValueType f ∈ integerTypes → pflagTypeToMTP f = "integer") ∧
  (flag_ValueType f ∈ floatTypes → pflagTypeToMTP f = "number") ∧
  (flag_ValueType f ∈ arrayTypes → pflagTypeToMTP f = "array") ∧
  (flag_ValueType f ≠ "bool" → flag_ValueType f ∉ integerTypes →
   flag_ValueType f ∉ floatTypes → flag_ValueType f ∉ arrayTypes →
   pflagTypeToMTP f = "string").
Proof.
  unfold pflagTypeToMTP.
  split_and!; intros; repeat case_decide; try done; exfalso; solve_kinds.
Qed.

(** C3. [pflagTypeToMTP] answers "array" for four of pflag's slice and
    array kinds and "string" for the seven others: a flag declared with
    [BoolSlice], for one, is described as a string. *)
Theorem pflagTypeToMTP_slice_kinds :
  (pflagTypeToMTP ∘ (λ t, Tests.mkFlag "tags" t "[]" "Tags")) <$> pflagSliceTypes =
  ["string"; "string"; "string"; "string"; "string"; "string";
   "array"; "string"; "array"; "array"; "array"].
Proof. vm_compute. reflexivity. Qed.

(** ** Defaults (section 4.1) *)

Lemma flagDescriptor_fields ann f :
  arg_Name (flagDescriptor ann f) = "--" +:+ flag_Name f ∧
  arg_Description (flagDescriptor ann f) = flag_Usage f ∧
  arg_Default (flagDescriptor ann f) = flagDefault f ∧
  arg_Required (flagDescriptor ann f) = arg_Required (flagDescriptor None f) ∧
  arg_Values (flagDescriptor ann f) = arg_Values (flagDescriptor None f).
Proof.
  unfold flagDescriptor.
  destruct (flagAnnotation f "values") as [[|v vs]|]; done.
Qed.

(** C5. The default a flag is described with: for a boolean flag, [true]
    exactly when the textual default is "true" and none otherwise; for an
    integer or float flag, none exactly when the textual default is empty
    or "0", else the text itself; for every other flag, none exactly when
    the textual default is empty or "[]", else the text itself. *)
Theorem emitted_default_policy :
  ∀ (ann : option CommandAnnotation) (f : Flag),
    let t := flag_ValueType f in
    let d := flag_DefValue f in
    let emitted := arg_Default (flagDescriptor ann f) in
    (t = "bool" →
       (emitted = Some (any_bool true) ↔ d = "true") ∧
       (emitted = None ↔ d ≠ "true")) ∧
    (t ∈ integerTypes ∨ t ∈ floatTypes →
       (emitted = None ↔ d = "" ∨ d = "0") ∧
       (¬ (d = "" ∨ d = "0") → emitted = Some (any_string d))) ∧
    (t ≠ "bool" → t ∉ integerTypes → t ∉ floatTypes →
       (emitted = None ↔ d = "" ∨ d = "[]") ∧
       (¬ (d = "" ∨ d = "[]") → emitted = Some (any_string d))).
Proof.
  intros ann f t d emitted. subst emitted.
  destruct (flagDescriptor_fields ann f) as (_ & _ & -> & _).
  unfold flagDefault. fold t d. split_and!.
  - intros Ht. rewrite decide_True by done. case_decide; naive_solver.
  - intros Ht. case_decide; [exfalso; subst t; destruct Ht; solve_kinds|].
    destruct Ht; repeat case_decide; naive_solver.
  - intros ???. repeat case_decide; naive_solver.
Qed.

Lemma emitted_default_policy_witness :
  arg_Default (flagDescriptor None (Tests.mkFlag "color" "bool" "true" "Colorize output"))
    = Some (any_bool true) ∧
  arg_Default (flagDescriptor None (Tests.mkFlag "port" "int" "0" "Port number")) = None ∧
  arg_Default (flagDescriptor None (Tests.mkFlag "format" "string" "json" "Output format"))
    = Some (any_string "json").
Proof.
  split_and!.
  - destruct (emitted_default_policy None
                (Tests.mkFlag "color" "bool" "true" "Colorize output")) as (Hbool & _).
    by apply Hbool.
  - destruct (emitted_default_policy None
                (Tests.mkFlag "port" "int" "0" "Port number")) as (_ & Hnum & _).
    apply Hnum; [left; apply list_elem_of_here | by right].
  - destruct (emitted_default_policy None
                (Tests.mkFlag "format" "string" "json" "Output format")) as (_ & _ & Hother).
    apply Hother; [done | solve_kinds | solve_kinds | by intros [?|?]].
Defined.

(** ** Annotation merge (section 4.5) *)

Lemma flagDescriptor_withType ann f :
  flagDescriptor ann f = withType (flagDescriptor None f) (arg_Type (flagDescriptor ann f)).
Proof.
  unfold flagDescriptor.
  destruct (flagAnnotation f "values") as [[|v vs]|]; done.
Qed.

(** The type a flag is described with: "enum" when it carries values,
    else the override of the annotation, else the inferred tag. *)
Lemma flagDescriptor_type ann f :
  arg_Type (flagDescriptor ann f) =
  match flagAnnotation f "values" with
  | Some (_ :: _) => "enum"
  | _ => default (pflagTypeToMTP f) (ann ≫= λ a, ann_ArgTypes a !! flag_Name f)
  end.
Proof.
  unfold flagDescriptor.
  destruct (flagAnnotation f "values") as [[|v vs]|]; cbn [arg_Type];
    destruct ann as [a|]; cbn; try done; by destruct (ann_ArgTypes a !! flag_Name f).
Qed.

(** Annotations neither add nor remove a flag descriptor, and change
    nothing of one but its type. *)
Lemma extractFlags_annotation cmd ann :
  Forall2 (λ x y, x = withType y (arg_Type x))
          (extractFlags cmd ann) (extractFlags cmd None).
Proof.
  rewrite !extractFlags_eq.
  induction (filter _ _) as [|f fl IH]; constructor; [|done].
  apply flagDescriptor_withType.
Qed.

(** C7. A described command and its annotation [ann], the one filed under
    the command's path: the positional args are those of the annotation
    when it has any, else those of the usage string; flag descriptors
    follow, the same flags with or without the annotation, which changes
    at most their types; stdin, stdout, examples and auth are those of the
    annotation, and absent without one. *)
Theorem annotation_merge :
  ∀ (root : Command) (opts : option DescribeOptions) (cd : CommandDescriptor),
    cd ∈ schema_Commands (Describe root opts) →
    ∃ path node,
      VisiblePath root path node ∧
      let ann := annotationFor opts (cd_Name cd) in
      cd_Args cd =
        match ann with
        | Some {| ann_Args := (_ :: _) as args |} => args
        | _ => parseUseArgs (cmd_Use node)
        end ++ extractFlags node ann ∧
      Forall2 (λ x y, x = withType y (arg_Type x))
              (extractFlags node ann) (extractFlags node None) ∧
      match ann with
      | Some a =>
          cd_Stdin cd = ann_Stdin a ∧ cd_Stdout cd = ann_Stdout a ∧
          cd_Examples cd = ann_Examples a ∧ cd_Auth cd = ann_Auth a
      | None =>
          cd_Stdin cd = None ∧ cd_Stdout cd = None ∧
          cd_Examples cd = [] ∧ cd_Auth cd = None
      end.
Proof.
  intros root opts cd Hin. cbn [Describe schema_Commands] in Hin.
  apply walkCommands_sound in Hin as (path & node & Hp & _ & _ & Hcd).
  exists path, node. split; [done|]. intros ann. fold ann in Hcd.
  split_and!.
  - rewrite Hcd at 1. cbn [extractCommand cd_Args]. f_equal.
    unfold positionalArgs. destruct ann as [[[|x args] ? ? ? ? ?]|]; done.
  - apply extractFlags_annotation.
  - rewrite Hcd. destruct ann as [a|]; done.
Qed.

Lemma annotation_merge_witness :
  ∃ cd, cd ∈ schema_Commands (Describe convertTool convertOptions) ∧
        arg_Name <$> cd_Args cd = ["input_file"; "--format"] ∧
        ∃ path node, VisiblePath convertTool path node.
Proof.
  eexists. split; [vm_compute; apply list_elem_of_here|]. split; [reflexivity|].
  destruct (annotation_merge convertTool convertOptions _
              ltac:(vm_compute; apply list_elem_of_here))
    as (path & node & Hp & _).
  by exists path, node.
Defined.

(** ** The enum invariant (section 3) *)

Lemma parseUseArgs_types use x :
  x ∈ parseUseArgs use → arg_Type x = "string".
Proof.
  unfold parseUseArgs.
  assert (∀ parts acc,
    (∀ y, y ∈ acc → arg_Type y = "string") →
    ∀ y, y ∈ foldl parseUsePart acc parts → arg_Type y = "string") as Hfold.
  { induction parts as [|part parts IH]; intros acc Hacc y; [apply Hacc|].
    cbn [foldl]. apply IH. intros z. unfold parseUsePart.
    repeat case_match; [| |apply Hacc];
      (rewrite elem_of_app, list_elem_of_singleton; intros [?| ->]; [by apply Hacc | done]). }
  destruct (strings.Fields use) as [|p [|q parts]].
  - by intros ?%elem_of_nil.
  - by intros ?%elem_of_nil.
  - apply Hfold. by intros ? ?%elem_of_nil.
Qed.

Lemma pflagTypeToMTP_not_enum f : pflagTypeToMTP f ≠ "enum".
Proof. unfold pflagTypeToMTP. repeat case_decide; done. Qed.

(** Against C4 as stated: both annotations put an "enum" descriptor
    without values into the schema. *)
Lemma enum_without_values :
  (λ cd, (λ a, (arg_Name a, arg_Type a, arg_Values a)) <$> cd_Args cd) <$>
    schema_Commands (Describe modeTool enumOverride) = [[("--mode", "enum", [])]] ∧
  (λ cd, (λ a, (arg_Name a, arg_Type a, arg_Values a)) <$> cd_Args cd) <$>
    schema_Commands (Describe modeTool enumPositional)
    = [[("level", "enum", []); ("--mode", "string", [])]].
Proof. vm_compute. split; reflexivity. Qed.

(** C4, amended. When no annotation assigns the type "enum" itself, that
    is, no [ArgTypes] override is "enum" and every positional arg of type
    "enum" that an annotation supplies has values, every descriptor of
    type "enum" in the schema has a non-empty list of values. *)
Theorem enum_has_values :
  ∀ (root : Command) (opts : option DescribeOptions),
    (∀ name a, annotationFor opts name = Some a →
       (∀ k, ann_ArgTypes a !! k ≠ Some "enum") ∧
       (∀ x, x ∈ ann_Args a → arg_Type x = "enum" → arg_Values x ≠ [])) →
    ∀ cd x,
      cd ∈ schema_Commands (Describe root opts) →
      x ∈ cd_Args cd → arg_Type x = "enum" → arg_Values x ≠ [].
Proof.
  intros root opts Hann cd x Hcd Hx Henum.
  cbn [Describe schema_Commands] in Hcd.
  apply walkCommands_sound in Hcd as (path & node & _ & _ & _ & Hcd).
  rewrite Hcd in Hx. cbn [extractCommand cd_Args] in Hx.
  set (ann := annotationFor opts (cd_Name cd)) in *.
  apply elem_of_app in Hx as [Hx|Hx].
  - unfold positionalArgs in Hx.
    destruct ann as [a|] eqn:Ea;
      [destruct (ann_Args a) as [|y ys] eqn:Eargs|];
      try (apply parseUseArgs_types in Hx; congruence).
    destruct (Hann _ _ Ea) as [_ Hargs]. apply Hargs; [by rewrite Eargs | done].
  - rewrite extractFlags_eq in Hx.
    apply list_elem_of_fmap in Hx as (f & -> & _).
    rewrite flagDescriptor_type in Henum.
    destruct (flagDescriptor_fields ann f) as (_ & _ & _ & _ & ->).
    unfold flagDescriptor.
    destruct (flagAnnotation f "values") as [[|v vs]|]; cbn [arg_Values]; try done;
      exfalso;
      (destruct ann as [a|] eqn:Ea; cbn in Henum;
       [destruct (ann_ArgTypes a !! flag_Name f) as [t|] eqn:Et; cbn in Henum;
        [subst t; by destruct (Hann _ _ Ea) as [Hk _]; apply (Hk (flag_Name f))|]|];
       by apply (pflagTypeToMTP_not_enum f)).
Qed.

Lemma enum_has_values_witness :
  (λ cd, (λ a, (arg_Name a, arg_Type a, arg_Values a)) <$> cd_Args cd) <$>
    schema_Commands (Describe convertTool convertOptions)
    = [[("input_file", "string", []); ("--format", "enum", ["json"; "csv"; "yaml"])]] ∧
  Forall (λ cd, Forall (λ x, arg_Type x = "enum" → arg_Values x ≠ []) (cd_Args cd))
         (schema_Commands (Describe convertTool convertOptions)).
Proof.
  split; [vm_compute; reflexivity|].
  apply Forall_forall. intros cd Hcd. apply Forall_forall. intros x Hx.
  apply (enum_has_values convertTool convertOptions) with (cd := cd); [|done..].
  intros name a Ha. unfold annotationFor, convertOptions in Ha. cbn in Ha.
  destruct (decide (name = "convert")) as [->|Hne].
  - rewrite lookup_singleton_eq in Ha. injection Ha as <-. cbn. split.
    + intros k. by rewrite lookup_empty.
    + intros y ->%list_elem_of_singleton. done.
  - by rewrite lookup_singleton_ne in Ha.
Defined.

(** ** Hidden and reserved commands and flags (sections 3 and 4.4) *)

Lemma VisiblePath_Descends cmd path node :
  VisiblePath cmd path node →
  Descends cmd path node ∧
  Forall (λ c, cmd_Hidden c = false ∧
               cmd_Name c ≠ "help" ∧ cmd_Name c ≠ "completion") path.
Proof.
  induction 1 as [cmd | cmd sub path node Hsub Hp [IHd IHf]].
  - split; constructor.
  - apply elem_of_visibleSubcommands in Hsub as (Hc & Hh & Hn).
    split; [by constructor | by constructor].
Qed.

Lemma skipsFlag_false f :
  skipsFlag f = false ↔
  flag_Hidden f = false ∧
  flag_Name f ≠ "help" ∧ flag_Name f ≠ "mtp-describe" ∧ flag_Name f ≠ "version".
Proof.
  unfold skipsFlag. rewrite orb_false_iff.
  pose proof (skippedFlags_spec (flag_Name f)) as Hs.
  destruct (lookupBool skippedFlags (flag_Name f)).
  - split; [by intros [? _]|]. intros (_ & ? & ? & ?).
    destruct Hs as [Hs _]. destruct (Hs eq_refl) as [?|[?|?]]; done.
  - split; [|by intros [? _]]. intros [_ Hh]. split; [done|].
    destruct Hs as [_ Hs]. split_and!; intros E; by discriminate Hs; auto.
Qed.

Lemma elem_of_VisitAll fs f : f ∈ VisitAll fs ↔ f ∈ orderedFormal fs.
Proof.
  unfold VisitAll. destruct (SortFlags fs); [|done].
  by rewrite merge_sort_Permutation.
Qed.

Lemma prune_subcommands cmd :
  cmd_Commands (prune cmd) = prune <$> visibleSubcommands cmd.
Proof.
  destruct cmd as [use name short long version hid run fs subs].
  cbn [prune withCommands cmd_Commands]. rewrite visibleSubcommands_eq.
  cbn [cmd_Commands].
  induction subs as [|sub subs IH]; [done|].
  cbn [flat_map]. rewrite filter_cons. destruct (skipsCommand sub) eqn:E.
  - by rewrite decide_False by done.
  - rewrite decide_True by done. by rewrite fmap_cons, <- IH.
Qed.

Lemma skipsCommand_prune cmd : skipsCommand (prune cmd) = skipsCommand cmd.
Proof. by destruct cmd. Qed.

Lemma filter_prune_visible (subs : list Command) :
  Forall (λ sub, skipsCommand sub = false) subs →
  filter (λ sub, skipsCommand sub = false) (prune <$> subs) = prune <$> subs.
Proof.
  induction 1 as [|sub subs Hs _ IH]; [done|].
  rewrite fmap_cons, filter_cons, skipsCommand_prune, decide_True by done.
  by rewrite IH.
Qed.

Lemma visibleSubcommands_prune cmd :
  visibleSubcommands (prune cmd) = prune <$> visibleSubcommands cmd.
Proof.
  rewrite (visibleSubcommands_eq (prune cmd)), prune_subcommands.
  apply filter_prune_visible, Forall_forall.
  intros sub Hsub. rewrite visibleSubcommands_eq in Hsub.
  by apply list_elem_of_filter in Hsub as [? _].
Qed.

Lemma extractCommand_prune cmd name ann :
  extractCommand (prune cmd) name ann = extractCommand cmd name ann.
Proof. by destruct cmd. Qed.

Lemma subPath_prune prefix sub : subPath prefix (prune sub) = subPath prefix sub.
Proof. by destruct sub. Qed.

(** The walk does not see what [prune] removes. *)
Lemma walkCommands_prune cmd :
  ∀ prefix opts, walkCommands (prune cmd) prefix opts = walkCommands cmd prefix opts.
Proof.
  induction cmd as [cmd IH] using Command_tree_ind. intros prefix opts.
  rewrite (walkCommands_eq (prune cmd)), (walkCommands_eq cmd),
    visibleSubcommands_prune, extractCommand_prune.
  assert (Forall (λ sub, ∀ prefix opts,
            walkCommands (prune sub) prefix opts = walkCommands sub prefix opts)
            (visibleSubcommands cmd)) as IHv.
  { apply Forall_forall. intros sub Hsub. rewrite Forall_forall in IH.
    apply IH. by apply elem_of_visibleSubcommands in Hsub as [? _]. }
  assert (flat_map (λ sub, walkCommands sub (subPath prefix sub) opts)
                   (prune <$> visibleSubcommands cmd) =
          flat_map (λ sub, walkCommands sub (subPath prefix sub) opts)
                   (visibleSubcommands cmd)) as Hflat.
  { induction IHv as [|sub subs Hsub _ IHsubs]; [done|].
    rewrite fmap_cons. cbn [flat_map]. by rewrite subPath_prune, Hsub, IHsubs. }
  destruct (visibleSubcommands cmd) as [|v vs]; [done|].
  rewrite fmap_cons. cbv iota. rewrite <- fmap_cons.
  by rewrite !foldl_app_flat, Hflat.
Qed.

(** Against C6 as stated: a root that is marked hidden is described all
    the same, as a leaf or through its subcommands, and so is a root
    named "help" or "completion". *)
Lemma hidden_root_is_described :
  cmd_Hidden (Tests.hidden (Tests.mkCommand "tool" "tool" "A tool" [] [])) = true ∧
  Tests.names (Describe (Tests.hidden (Tests.mkCommand "tool" "tool" "A tool" [] [])) None)
    = ["_root"] ∧
  Tests.names (Describe (Tests.hidden (Tests.mkCommand "tool" "tool" "A tool" []
                                         [Tests.mkCommand "run" "run" "Run" [] []])) None)
    = ["run"] ∧
  Tests.names (Describe (Tests.mkCommand "completion" "completion" "Complete" [] []) None)
    = ["_root"].
Proof. vm_compute. split_and!; reflexivity. Qed.

(** C6, amended. Every descriptor of the schema is that of a command
    reached from the root through subcommands none of which is hidden or
    named "help" or "completion"; the root itself is not tested.  The
    flag descriptors among its args are those of flags of that command
    which are not hidden and not named "help", "mtp-describe" or
    "version".  Taking every hidden or reserved subcommand out of the
    tree, with all below it, leaves the schema as it is. *)
Theorem hidden_and_reserved_excluded :
  ∀ (root : Command) (opts : option DescribeOptions),
    (∀ cd, cd ∈ schema_Commands (Describe root opts) →
       ∃ path node flags,
         let ann := annotationFor opts (cd_Name cd) in
         Descends root path node ∧
         Forall (λ c, cmd_Hidden c = false ∧
                      cmd_Name c ≠ "help" ∧ cmd_Name c ≠ "completion") path ∧
         cd = extractCommand node (cd_Name cd) ann ∧
         cd_Args cd = positionalArgs node ann ++ (flagDescriptor ann <$> flags) ∧
         Forall (λ f, f ∈ orderedFormal (cmd_Flags node) ∧ flag_Hidden f = false ∧
                      flag_Name f ≠ "help" ∧ flag_Name f ≠ "mtp-describe" ∧
                      flag_Name f ≠ "version") flags) ∧
    Describe (prune root) opts = Describe root opts.
Proof.
  intros root opts. split.
  - intros cd Hin. cbn [Describe schema_Commands] in Hin.
    apply walkCommands_sound in Hin as (path & node & Hp & _ & _ & Hcd).
    apply VisiblePath_Descends in Hp as [Hd Hf].
    exists path, node,
      (filter (λ f, skipsFlag f = false) (VisitAll (cmd_Flags node))).
    intros ann. split_and!; try done.
    + rewrite Hcd at 1. cbn [extractCommand cd_Args]. by rewrite extractFlags_eq.
    + apply Forall_forall. intros f [Hs Hv]%list_elem_of_filter.
      apply elem_of_VisitAll in Hv. apply skipsFlag_false in Hs. done.
  - unfold Describe. rewrite walkCommands_prune. by destruct root.
Qed.

Lemma hidden_and_reserved_excluded_witness :
  Tests.argsOf (Describe screenedTool None) = [[("--name", "string")]] ∧
  ∃ path node,
    Descends screenedTool path node ∧
    Forall (λ c, cmd_Hidden c = false ∧
                 cmd_Name c ≠ "help" ∧ cmd_Name c ≠ "completion") path.
Proof.
  split; [vm_compute; reflexivity|].
  destruct (proj1 (hidden_and_reserved_excluded screenedTool None)
              (extractCommand visibleCommand "visible" None))
    as (path & node & flags & Hd & Hf & _); [vm_compute; apply list_elem_of_here|].
  by exists path, node.
Defined.

(** ** Enum values ([EnumValues], sections 4.1 and 6) *)

(** A flag that carries a non-empty list of values is described as an
    enum with that list, whatever the annotation says. *)
Lemma flagDescriptor_enum ann f vals :
  flagAnnotation f "values" = Some vals → vals ≠ [] →
  arg_Type (flagDescriptor ann f) = "enum" ∧ arg_Values (flagDescriptor ann f) = vals.
Proof.
  intros Hv Hne. unfold flagDescriptor. rewrite Hv. by destruct vals.
Qed.

Lemma Lookup_Some fs name i f :
  Lookup fs name = Some (i, f) →
  orderedFormal fs !! i = Some f ∧ flag_Name f = name ∧
  ∀ j g, orderedFormal fs !! j = Some g → j < i → flag_Name g ≠ name.
Proof. unfold Lookup. by intros ?%list_find_Some. Qed.

(** C8. After [EnumValues] has attached a non-empty list of values to a
    flag of the command, the flag is found under its name carrying that
    list, and its descriptor has the flag's name, the type "enum" and
    exactly that list as values, under every annotation, so also under
    one whose [ArgTypes] gives the flag another type; unless the flag is
    passed over, that descriptor is among the args of the command. *)
Theorem enum_values_take_precedence :
  ∀ (cmd : Command) (flagName : string) (values : list string)
    (ann : option CommandAnnotation) (name : string) (i : nat) (f : Flag),
    values ≠ [] →
    Lookup (cmd_Flags cmd) flagName = Some (i, f) →
    ∃ f',
      Lookup (cmd_Flags (EnumValues cmd flagName values)) flagName = Some (i, f') ∧
      flagAnnotation f' "values" = Some values ∧
      arg_Name (flagDescriptor ann f') = "--" +:+ flagName ∧
      arg_Type (flagDescriptor ann f') = "enum" ∧
      arg_Values (flagDescriptor ann f') = values ∧
      (skipsFlag f = false →
       flagDescriptor ann f' ∈
         cd_Args (extractCommand (EnumValues cmd flagName values) name ann)).
Proof.
  intros cmd flagName values ann name i f Hne Hl.
  unfold EnumValues. rewrite Hl.
  apply Lookup_Some in Hl as (Hi & Hname & Hfirst).
  set (f' := withAnnotations f _).
  assert (flagAnnotation f' "values" = Some values) as Hvals.
  { unfold flagAnnotation, f'. cbn. apply lookup_insert_eq. }
  assert (i < length (orderedFormal (cmd_Flags cmd))) as Hlt by (by eapply lookup_lt_Some).
  exists f'. split_and!.
  - unfold Lookup. cbn. apply list_find_Some. split_and!.
    + by apply list_lookup_insert_eq.
    + done.
    + intros j g Hj Hji. rewrite list_lookup_insert_ne in Hj by lia. by eapply Hfirst.
  - done.
  - destruct (flagDescriptor_fields ann f') as (-> & _). by rewrite <- Hname.
  - by eapply flagDescriptor_enum.
  - by eapply flagDescriptor_enum.
  - intros Hs. cbn [extractCommand cd_Args]. apply elem_of_app. right.
    rewrite extractFlags_eq. apply list_elem_of_fmap_2, list_elem_of_filter.
    split; [exact Hs|]. apply elem_of_VisitAll. cbn.
    by apply list_elem_of_insert.
Qed.

Lemma enum_values_take_precedence_witness :
  (λ a, (arg_Name a, arg_Type a, arg_Values a)) <$>
    cd_Args (extractCommand formatCommand "_root" (Some formatAsInteger))
    = [("--format", "integer", [])] ∧
  ∃ f',
    arg_Type (flagDescriptor (Some formatAsInteger) f') = "enum" ∧
    arg_Values (flagDescriptor (Some formatAsInteger) f') = ["json"; "csv"; "yaml"] ∧
    flagDescriptor (Some formatAsInteger) f' ∈
      cd_Args (extractCommand (EnumValues formatCommand "format" ["json"; "csv"; "yaml"])
                              "_root" (Some formatAsInteger)).
Proof.
  split; [vm_compute; reflexivity|].
  destruct (enum_values_take_precedence formatCommand "format" ["json"; "csv"; "yaml"]
              (Some formatAsInteger) "_root" 0
              (Tests.mkFlag "format" "string" "json" "Output format"))
    as (f' & _ & _ & _ & Ht & Hv & Hin); [done | reflexivity |].
  exists f'. split_and!; [done | done | by apply Hin].
Defined.

(** C9. [EnumValues] with a name that no flag of the command has returns
    without an error (the function has no result at all) and leaves the
    command as it was, its flags included. *)
Theorem EnumValues_unknown_flag :
  ∀ (cmd : Command) (flagName : string) (values : list string),
    (∀ f, f ∈ orderedFormal (cmd_Flags cmd) → flag_Name f ≠ flagName) →
    Lookup (cmd_Flags cmd) flagName = None ∧
    EnumValues cmd flagName values = cmd ∧
    cmd_Flags (EnumValues cmd flagName values) = cmd_Flags cmd.
Proof.
  intros cmd flagName values Hno.
  assert (Lookup (cmd_Flags cmd) flagName = None) as Hl.
  { unfold Lookup. apply list_find_None, Forall_forall. exact Hno. }
  unfold EnumValues. by rewrite Hl.
Qed.

Lemma EnumValues_unknown_flag_witness :
  EnumValues formatCommand "nonexistent" ["a"; "b"] = formatCommand.
Proof.
  apply (EnumValues_unknown_flag formatCommand "nonexistent" ["a"; "b"]).
  intros f ->%list_elem_of_singleton. done.
Defined.

(** ** Reserved command names *)

(** C10. A subcommand named "help" or "completion" is left out whatever
    else it is: it is not among the visible subcommands, and the walk of
    its parent yields what it yields without that subcommand. *)
Theorem reserved_name_excluded :
  ∀ (cmd sub : Command) (before after : list Command)
    (prefix : string) (opts : option DescribeOptions),
    cmd_Name sub = "help" ∨ cmd_Name sub = "completion" →
    (sub ∉ visibleSubcommands (withCommands cmd (before ++ [sub] ++ after))) ∧
    walkCommands (withCommands cmd (before ++ [sub] ++ after)) prefix opts =
    walkCommands (withCommands cmd (before ++ after)) prefix opts.
Proof.
  intros cmd sub before after prefix opts Hname. split.
  - rewrite elem_of_visibleSubcommands. intros (_ & _ & ? & ?). by destruct Hname.
  - assert (skipsCommand sub = true) as Hs.
    { unfold skipsCommand. apply orb_true_iff. right. by apply skippedCommands_spec. }
    assert (visibleSubcommands (withCommands cmd (before ++ [sub] ++ after)) =
            visibleSubcommands (withCommands cmd (before ++ after))) as Hv.
    { rewrite !visibleSubcommands_eq. cbn [withCommands cmd_Commands].
      rewrite !filter_app. cbn [filter list_filter]. rewrite decide_False; [done|]. by rewrite Hs. }
    rewrite !walkCommands_eq, Hv. done.
Qed.

Lemma reserved_name_excluded_witness :
  Tests.names (Describe
     (Tests.mkCommand "tool" "tool" ""
        [] [Tests.mkCommand "run" "run" "Run" [] []; ownHelp]) None) = ["run"] ∧
  walkCommands (withCommands (Tests.mkCommand "tool" "tool" "" [] [])
                  ([Tests.mkCommand "run" "run" "Run" [] []] ++ [ownHelp] ++ [])) "" None =
  walkCommands (withCommands (Tests.mkCommand "tool" "tool" "" [] [])
                  ([Tests.mkCommand "run" "run" "Run" [] []] ++ [])) "" None.
Proof.
  split; [vm_compute; reflexivity|].
  apply (reserved_name_excluded (Tests.mkCommand "tool" "tool" "" [] []) ownHelp
           [Tests.mkCommand "run" "run" "Run" [] []] [] "" None).
  left. reflexivity.
Defined.

(** * Further properties of the code *)

(** ** The walker and the options *)

(** X1. The command list of a schema is never empty, and no descriptor
    has an empty name. *)
Theorem schema_commands_nonempty :
  ∀ (root : Command) (opts : option DescribeOptions),
    schema_Commands (Describe root opts) ≠ [] ∧
    Forall (λ cd, cd_Name cd ≠ "") (schema_Commands (Describe root opts)).
Proof.
  intros root opts. cbn [Describe schema_Commands]. split.
  - generalize "". induction root as [cmd IH] using Command_tree_ind. intros prefix.
    destruct (visibleSubcommands cmd) as [|v vs] eqn:E.
    + by rewrite walkCommands_leaf.
    + rewrite walkCommands_group by (by rewrite E). rewrite E. cbn [flat_map].
      rewrite Forall_forall in IH.
      assert (v ∈ cmd_Commands cmd) as Hv.
      { apply (elem_of_visibleSubcommands cmd v). rewrite E. apply list_elem_of_here. }
      specialize (IH v Hv (subPath prefix v)).
      destruct (walkCommands v (subPath prefix v) opts); done.
  - apply Forall_forall. intros cd Hcd.
    apply walkCommands_sound in Hcd as (path & node & _ & _ & -> & _).
    unfold leafName. by case_decide.
Qed.

Lemma walkCommands_names cmd :
  ∀ prefix opts,
    cd_Name <$> walkCommands cmd prefix opts = cd_Name <$> walkCommands cmd prefix None.
Proof.
  induction cmd as [cmd IH] using Command_tree_ind. intros prefix opts.
  destruct (visibleSubcommands cmd) as [|v vs] eqn:E.
  - by rewrite !walkCommands_leaf.
  - rewrite !walkCommands_group by (by rewrite E).
    assert (Forall (λ sub, ∀ prefix opts,
              cd_Name <$> walkCommands sub prefix opts =
              cd_Name <$> walkCommands sub prefix None) (visibleSubcommands cmd)) as IHv.
    { apply Forall_forall. intros sub Hsub. rewrite Forall_forall in IH.
      apply IH. by apply elem_of_visibleSubcommands in Hsub as [? _]. }
    clear E. induction IHv as [|sub subs Hsub _ IHsubs]; [done|].
    cbn [flat_map]. by rewrite !fmap_app, Hsub, IHsubs.
Qed.

Lemma walkCommands_agree cmd :
  ∀ prefix opts1 opts2,
    (∀ name, name ∈ cd_Name <$> walkCommands cmd prefix None →
             annotationFor opts1 name = annotationFor opts2 name) →
    walkCommands cmd prefix opts1 = walkCommands cmd prefix opts2.
Proof.
  induction cmd as [cmd IH] using Command_tree_ind. intros prefix opts1 opts2 Hagree.
  destruct (visibleSubcommands cmd) as [|v vs] eqn:E.
  - rewrite !walkCommands_leaf by done. rewrite Hagree; [done|].
    rewrite walkCommands_leaf by done. apply list_elem_of_here.
  - rewrite !walkCommands_group by (by rewrite E).
    rewrite walkCommands_group in Hagree by (by rewrite E).
    assert (Forall (λ sub, ∀ prefix opts1 opts2,
              (∀ name, name ∈ cd_Name <$> walkCommands sub prefix None →
                       annotationFor opts1 name = annotationFor opts2 name) →
              walkCommands sub prefix opts1 = walkCommands sub prefix opts2)
              (visibleSubcommands cmd)) as IHv.
    { apply Forall_forall. intros sub Hsub. rewrite Forall_forall in IH.
      apply IH. by apply elem_of_visibleSubcommands in Hsub as [? _]. }
    clear E. induction IHv as [|sub subs Hsub _ IHsubs]; [done|].
    cbn [flat_map] in *. rewrite fmap_app in Hagree. f_equal.
    + apply Hsub. intros name Hn. apply Hagree, elem_of_app. by left.
    + apply IHsubs. intros name Hn. apply Hagree, elem_of_app. by right.
Qed.

(** X2. The names of the descriptors do not depend on the options, and
    the options matter only through the annotations filed under those
    names: two option sets that agree there, and on the tool's auth, give
    the same schema.  An annotation filed under any other key, the path
    of a group among them, changes nothing. *)
Theorem annotations_matter_by_name :
  ∀ (root : Command) (opts1 opts2 : option DescribeOptions),
    (∀ name, name ∈ cd_Name <$> schema_Commands (Describe root None) →
             annotationFor opts1 name = annotationFor opts2 name) →
    opts1 ≫= opts_Auth = opts2 ≫= opts_Auth →
    cd_Name <$> schema_Commands (Describe root opts1) =
      cd_Name <$> schema_Commands (Describe root None) ∧
    Describe root opts1 = Describe root opts2.
Proof.
  intros root opts1 opts2 Hagree Hauth. split.
  - apply walkCommands_names.
  - unfold Describe. rewrite Hauth. f_equal. by apply walkCommands_agree.
Qed.

Lemma annotations_matter_by_name_witness :
  Describe nestedTool groupAnnotated = Describe nestedTool None.
Proof.
  apply (annotations_matter_by_name nestedTool groupAnnotated None); [|done].
  intros name Hname. vm_compute in Hname.
  apply list_elem_of_singleton in Hname as ->. reflexivity.
Defined.

(** ** Positional arguments from the usage string *)

Lemma parseUsePart_foldl (parts : list string) (acc : list ArgDescriptor) :
  foldl parseUsePart acc parts = acc ++ flat_map (parseUsePart []) parts.
Proof.
  revert acc. induction parts as [|part parts IH]; intros acc; cbn [foldl flat_map].
  - by rewrite app_nil_r.
  - rewrite IH. rewrite app_assoc. f_equal.
    unfold parseUsePart. repeat case_match; by rewrite ?app_nil_r.
Qed.

Lemma parseUseArgs_eq use :
  parseUseArgs use = flat_map (parseUsePart []) (drop 1 (strings.Fields use)).
Proof.
  unfold parseUseArgs. destruct (strings.Fields use) as [|p [|q parts]]; [done..|].
  by rewrite parseUsePart_foldl.
Qed.

(** X3. What [parseUseArgs] reads off a usage string.  The first field,
    the command's own name, never counts; each later field gives at most
    one arg, in the order of the fields; every arg is a string without
    description, default or values; it is required when its field is in
    angle brackets and optional when the field is in square brackets, and
    its name is the field with those brackets trimmed off. *)
Theorem parseUseArgs_shape :
  ∀ (use : string),
    length (parseUseArgs use) ≤ length (strings.Fields use) - 1 ∧
    (∀ use', drop 1 (strings.Fields use') = drop 1 (strings.Fields use) →
             parseUseArgs use' = parseUseArgs use) ∧
    Forall (λ x,
      arg_Type x = "string" ∧ arg_Description x = "" ∧
      arg_Default x = None ∧ arg_Values x = [] ∧
      ∃ part, part ∈ drop 1 (strings.Fields use) ∧
        if arg_Required x
        then strings.HasPrefix part "<" = true ∧ strings.HasSuffix part ">" = true ∧
             arg_Name x = strings.Trim part "<>"
        else strings.HasPrefix part "[" = true ∧ strings.HasSuffix part "]" = true ∧
             arg_Name x = strings.Trim part "[]")
      (parseUseArgs use).
Proof.
  intros use. rewrite parseUseArgs_eq. split_and!.
  - rewrite <- length_drop. induction (drop 1 (strings.Fields use)) as [|part parts IH]; [done|].
    cbn [flat_map]. rewrite length_app. cbn [length].
    assert (length (parseUsePart [] part) ≤ 1); [|lia].
    unfold parseUsePart. repeat case_match; cbn; lia.
  - intros use' Heq. by rewrite parseUseArgs_eq, Heq.
  - apply Forall_forall. intros x Hx.
    apply list_elem_of_In, in_flat_map in Hx as (part & Hpart & Hx).
    apply list_elem_of_In in Hpart, Hx. unfold parseUsePart in Hx.
    destruct (strings.HasPrefix part "<" && strings.HasSuffix part ">") eqn:Ea.
    + apply list_elem_of_singleton in Hx as ->. apply andb_true_iff in Ea as [??].
      split_and!; try done. by exists part.
    + destruct (strings.HasPrefix part "[" && strings.HasSuffix part "]") eqn:Eb.
      * apply list_elem_of_singleton in Hx as ->. apply andb_true_iff in Eb as [??].
        split_and!; try done. by exists part.
      * by apply elem_of_nil in Hx.
Qed.

(** ** Type tags *)

Lemma pflagTypeToMTP_tag f : pflagTypeToMTP f ∈ typeTags.
Proof.
  unfold pflagTypeToMTP, typeTags. repeat case_decide;
    rewrite !elem_of_cons; tauto.
Qed.

(** X4. When every type that the annotations name, in an [ArgTypes]
    override or a positional arg, is one of the six type tags, every arg
    of the schema has one of the six type tags; without annotations that
    is always so. *)
Theorem arg_types_are_tags :
  ∀ (root : Command) (opts : option DescribeOptions),
    (∀ name a, annotationFor opts name = Some a →
       (∀ k t, ann_ArgTypes a !! k = Some t → t ∈ typeTags) ∧
       (∀ x, x ∈ ann_Args a → arg_Type x ∈ typeTags)) →
    Forall (λ cd, Forall (λ x, arg_Type x ∈ typeTags) (cd_Args cd))
           (schema_Commands (Describe root opts)).
Proof.
  intros root opts Hann. apply Forall_forall. intros cd Hcd.
  apply Forall_forall. intros x Hx.
  cbn [Describe schema_Commands] in Hcd.
  apply walkCommands_sound in Hcd as (path & node & _ & _ & _ & Hcd).
  rewrite Hcd in Hx. cbn [extractCommand cd_Args] in Hx.
  set (ann := annotationFor opts (cd_Name cd)) in *.
  apply elem_of_app in Hx as [Hx|Hx].
  - unfold positionalArgs in Hx.
    destruct ann as [a|] eqn:Ea;
      [destruct (ann_Args a) as [|y ys] eqn:Eargs|];
      try (apply parseUseArgs_types in Hx; rewrite Hx; unfold typeTags;
           rewrite !elem_of_cons; tauto).
    destruct (Hann _ _ Ea) as [_ Hargs]. apply Hargs. by rewrite Eargs.
  - rewrite extractFlags_eq in Hx.
    apply list_elem_of_fmap in Hx as (f & -> & _).
    rewrite flagDescriptor_type.
    destruct (flagAnnotation f "values") as [[|v vs]|];
      try (unfold typeTags; rewrite !elem_of_cons; tauto);
      (destruct ann as [a|] eqn:Ea; cbn;
       [destruct (ann_ArgTypes a !! flag_Name f) as [t|] eqn:Et; cbn;
        [by destruct (Hann _ _ Ea) as [Hk _]; apply (Hk (flag_Name f))|]|];
       apply pflagTypeToMTP_tag).
Qed.

Lemma arg_types_are_tags_witness :
  Forall (λ cd, Forall (λ x, arg_Type x ∈ typeTags) (cd_Args cd))
         (schema_Commands (Describe convertTool convertOptions)).
Proof.
  apply (arg_types_are_tags convertTool convertOptions).
  intros name a Ha. unfold annotationFor, convertOptions in Ha. cbn in Ha.
  destruct (decide (name = "convert")) as [->|Hne].
  - rewrite lookup_singleton_eq in Ha. injection Ha as <-. cbn. split.
    + intros k t. by rewrite lookup_empty.
    + intros y ->%list_elem_of_singleton. cbn. unfold typeTags.
      rewrite !elem_of_cons. tauto.
  - by rewrite lookup_singleton_ne in Ha.
Defined.

(** X5. Flag extraction reads nothing of an annotation but the [ArgTypes]
    entries under the names of the command's own flags: annotations that
    agree there give the same flag descriptors, and one without such an
    entry gives those of no annotation at all. *)
Theorem argTypes_read_by_flag_name :
  ∀ (cmd : Command) (a : CommandAnnotation) (ann' : option CommandAnnotation),
    (∀ f, f ∈ orderedFormal (cmd_Flags cmd) →
          ann_ArgTypes a !! flag_Name f = ann' ≫= λ a', ann_ArgTypes a' !! flag_Name f) →
    extractFlags cmd (Some a) = extractFlags cmd ann'.
Proof.
  intros cmd a ann' Hagree. rewrite !extractFlags_eq.
  apply list_fmap_ext. intros i f Hf.
  apply list_elem_of_lookup_2, list_elem_of_filter in Hf as [_ Hf].
  apply elem_of_VisitAll in Hf. specialize (Hagree f Hf).
  rewrite (flagDescriptor_withType (Some a)), (flagDescriptor_withType ann').
  f_equal. rewrite !flagDescriptor_type. cbn. by rewrite Hagree.
Qed.

Lemma argTypes_read_by_flag_name_witness :
  extractFlags modeTool (Some formatAsInteger) = extractFlags modeTool None.
Proof.
  apply (argTypes_read_by_flag_name modeTool formatAsInteger None).
  intros f ->%list_elem_of_singleton. reflexivity.
Defined.

(** ** The order of enumeration *)

#[local] Instance flagNameLe_trans : Transitive flagNameLe.
Proof. intros f g h. unfold flagNameLe. apply transitivity. Qed.

Lemma NoDup_fmap_eq {A B} (f : A → B) (l : list A) (x y : A) :
  NoDup (f <$> l) → x ∈ l → y ∈ l → f x = f y → x = y.
Proof.
  induction l as [|z l IH]; [by intros _ ?%elem_of_nil|].
  rewrite fmap_cons, NoDup_cons. intros [Hz Hl] Hx Hy Hxy.
  apply elem_of_cons in Hx as [->|Hx]; apply elem_of_cons in Hy as [->|Hy].
  - done.
  - destruct Hz. rewrite Hxy. by apply list_elem_of_fmap_2.
  - destruct Hz. rewrite <- Hxy. by apply list_elem_of_fmap_2.
  - by apply IH.
Qed.

(** Flags with distinct names have one arrangement only that ascends by
    name. *)
Lemma sorted_by_name_unique (l1 l2 : list Flag) :
  NoDup (flag_Name <$> l1) → l1 ≡ₚ l2 →
  Sorted flagNameLe l1 → Sorted flagNameLe l2 → l1 = l2.
Proof.
  intros Hnd Hperm Hs1 Hs2.
  apply (Sorted_unique_strong flagNameLe); try done.
  intros x1 x2 Hx1 Hx2 H12 H21. rewrite <- Hperm in Hx2.
  apply (NoDup_fmap_eq flag_Name l1); try done.
  unfold flagNameLe in *. by apply (anti_symm String.le).
Qed.

Lemma Sorted_VisitAll fs : SortFlags fs = true → Sorted flagNameLe (VisitAll fs).
Proof. unfold VisitAll. intros ->. apply Sorted_merge_sort, _. Qed.

Lemma VisitAll_Permutation fs : VisitAll fs ≡ₚ orderedFormal fs.
Proof. unfold VisitAll. destruct (SortFlags fs); [apply merge_sort_Permutation | done]. Qed.

Lemma StronglySorted_filter {A} (R : relation A) (P : A → Prop)
    `{∀ x, Decision (P x)} (l : list A) :
  StronglySorted R l → StronglySorted R (filter P l).
Proof.
  induction 1 as [|x l Hl IH Hx]; [constructor|].
  rewrite filter_cons. case_decide; [|done]. constructor; [done|].
  apply Forall_forall. intros y [_ Hy]%list_elem_of_filter.
  rewrite Forall_forall in Hx. by apply Hx.
Qed.

Lemma NoDup_fmap_filter {A B} (f : A → B) (P : A → Prop)
    `{∀ x, Decision (P x)} (l : list A) :
  NoDup (f <$> l) → NoDup (f <$> filter P l).
Proof.
  induction l as [|x l IH]; [done|].
  rewrite fmap_cons, NoDup_cons, filter_cons. intros [Hx Hl].
  case_decide; [|by apply IH]. rewrite fmap_cons. apply NoDup_cons. split; [|by apply IH].
  intros (y & Hxy & [_ Hy]%list_elem_of_filter)%list_elem_of_fmap.
  apply Hx. rewrite Hxy. by apply list_elem_of_fmap_2.
Qed.

(** X6. While a flag set sorts its flags, the order in which the flags
    were declared does not show: two commands that differ only in the
    order of declaration of their flags, the names being distinct, are
    described alike. *)
Theorem declaration_order_does_not_show :
  ∀ (cmd : Command) (flags' : list Flag) (name : string)
    (ann : option CommandAnnotation),
    SortFlags (cmd_Flags cmd) = true →
    NoDup (flag_Name <$> orderedFormal (cmd_Flags cmd)) →
    flags' ≡ₚ orderedFormal (cmd_Flags cmd) →
    extractCommand (withFlags cmd {| orderedFormal := flags'; SortFlags := true |}) name ann
    = extractCommand cmd name ann.
Proof.
  intros cmd flags' name ann Hsort Hnd Hperm.
  assert (VisitAll {| orderedFormal := flags'; SortFlags := true |}
          = VisitAll (cmd_Flags cmd)) as Hv.
  { apply sorted_by_name_unique.
    - rewrite VisitAll_Permutation. cbn [orderedFormal]. by rewrite Hperm.
    - rewrite !VisitAll_Permutation. exact Hperm.
    - by apply Sorted_VisitAll.
    - by apply Sorted_VisitAll. }
  unfold extractCommand, extractFlags, positionalArgs.
  cbn [withFlags cmd_Flags cmd_Use cmd_Short cmd_Long]. by rewrite Hv.
Qed.

Lemma declaration_order_does_not_show_witness :
  extractCommand
    (withFlags reverseDeclared
       {| orderedFormal := reverse (orderedFormal (cmd_Flags reverseDeclared));
          SortFlags := true |}) "list" None
  = extractCommand reverseDeclared "list" None.
Proof.
  apply (declaration_order_does_not_show reverseDeclared).
  - reflexivity.
  - vm_compute. repeat constructor; rewrite ?elem_of_cons, ?elem_of_nil; intuition discriminate.
  - apply reverse_Permutation.
Defined.

(** X7. A flag that [extractFlags] passes over, because it is hidden or
    has a reserved name, can be added to a command without any change to
    the command's descriptor, whether the flag set sorts its flags or not;
    the "mtp-describe" flag that [WithDescribe] declares is such a flag. *)
Theorem skipped_flag_leaves_no_trace :
  ∀ (cmd : Command) (f : Flag) (name : string) (ann : option CommandAnnotation),
    skipsFlag f = true →
    NoDup (flag_Name <$> orderedFormal (AddFlag (cmd_Flags cmd) f)) →
    extractCommand (withFlags cmd (AddFlag (cmd_Flags cmd) f)) name ann
    = extractCommand cmd name ann.
Proof.
  intros cmd f name ann Hskip Hnd.
  assert (filter (λ f, skipsFlag f = false) (VisitAll (AddFlag (cmd_Flags cmd) f))
          = filter (λ f, skipsFlag f = false) (VisitAll (cmd_Flags cmd))) as Hv.
  { assert (filter (λ f, skipsFlag f = false) (orderedFormal (cmd_Flags cmd) ++ [f])
            = filter (λ f, skipsFlag f = false) (orderedFormal (cmd_Flags cmd))) as Hf.
    { rewrite filter_app. cbn [filter list_filter].
      rewrite decide_False by (by rewrite Hskip). by rewrite app_nil_r. }
    unfold VisitAll. cbn [AddFlag SortFlags orderedFormal].
    destruct (SortFlags (cmd_Flags cmd)); [|done].
    apply sorted_by_name_unique.
    - apply NoDup_fmap_filter. by rewrite merge_sort_Permutation.
    - by rewrite !merge_sort_Permutation, Hf.
    - apply StronglySorted_Sorted, StronglySorted_filter,
        StronglySorted_merge_sort; apply _.
    - apply StronglySorted_Sorted, StronglySorted_filter,
        StronglySorted_merge_sort; apply _. }
  unfold extractCommand, positionalArgs. rewrite !extractFlags_eq.
  cbn [withFlags cmd_Flags cmd_Use cmd_Short cmd_Long]. by rewrite Hv.
Qed.

Lemma skipped_flag_leaves_no_trace_witness :
  skipsFlag describeFlag = true ∧
  extractCommand (withFlags fetchCommand (AddFlag (cmd_Flags fetchCommand) describeFlag))
                 "fetch" None
  = extractCommand fetchCommand "fetch" None.
Proof.
  split; [reflexivity|].
  apply (skipped_flag_leaves_no_trace fetchCommand describeFlag); [reflexivity|].
  vm_compute. repeat constructor; rewrite ?elem_of_cons, ?elem_of_nil; intuition discriminate.
Defined.

(** X8. The flag descriptors of a command have pairwise distinct names,
    each "--" followed by the name of its flag, the names of the flags
    being distinct. *)
Theorem flag_descriptor_names_distinct :
  ∀ (cmd : Command) (ann : option CommandAnnotation),
    NoDup (flag_Name <$> orderedFormal (cmd_Flags cmd)) →
    NoDup (arg_Name <$> extractFlags cmd ann) ∧
    Forall (λ x, ∃ f, f ∈ orderedFormal (cmd_Flags cmd) ∧
                      arg_Name x = "--" +:+ flag_Name f)
           (extractFlags cmd ann).
Proof.
  intros cmd ann Hnd. rewrite extractFlags_eq. split.
  - rewrite <- list_fmap_compose.
    rewrite (list_fmap_ext (arg_Name ∘ flagDescriptor ann) (String.app "--" ∘ flag_Name)).
    + rewrite list_fmap_compose. apply NoDup_fmap_2; [apply _|].
      apply NoDup_fmap_filter. by rewrite VisitAll_Permutation.
    + intros i f _. cbn. by destruct (flagDescriptor_fields ann f) as (-> & _).
  - apply Forall_forall. intros x (f & -> & [_ Hf]%list_elem_of_filter)%list_elem_of_fmap.
    exists f. split; [by apply elem_of_VisitAll|].
    by destruct (flagDescriptor_fields ann f) as (-> & _).
Qed.

Lemma flag_descriptor_names_distinct_witness :
  NoDup (arg_Name <$> extractFlags fetchCommand None).
Proof.
  apply (flag_descriptor_names_distinct fetchCommand None).
  vm_compute. repeat constructor; rewrite ?elem_of_cons, ?elem_of_nil; intuition discriminate.
Defined.

(** ** More on [EnumValues] *)

Lemma Lookup_replaced fs name i f f' :
  Lookup fs name = Some (i, f) → flag_Name f' = name →
  Lookup {| orderedFormal := <[i := f']> (orderedFormal fs); SortFlags := SortFlags fs |} name
  = Some (i, f').
Proof.
  intros (Hi & Hname & Hfirst)%Lookup_Some Hname'.
  unfold Lookup. cbn. apply list_find_Some. split_and!.
  - apply list_lookup_insert_eq. by eapply lookup_lt_Some.
  - done.
  - intros j g Hj Hji. rewrite list_lookup_insert_ne in Hj by lia. by eapply Hfirst.
Qed.

Lemma EnumValues_found cmd flagName values i f :
  Lookup (cmd_Flags cmd) flagName = Some (i, f) →
  EnumValues cmd flagName values =
  withFlags cmd {| orderedFormal := <[i := setValues values f]> (orderedFormal (cmd_Flags cmd));
                   SortFlags := SortFlags (cmd_Flags cmd) |}.
Proof. intros Hl. unfold EnumValues. by rewrite Hl. Qed.

(** X9. Of two calls of [EnumValues] on the same flag the second one
    wins: the command is left as by the second call alone, so a repeated
    call changes nothing more. *)
Theorem EnumValues_last_call_wins :
  ∀ (cmd : Command) (flagName : string) (values1 values2 : list string),
    EnumValues (EnumValues cmd flagName values1) flagName values2
    = EnumValues cmd flagName values2.
Proof.
  intros cmd flagName values1 values2.
  destruct (Lookup (cmd_Flags cmd) flagName) as [[i f]|] eqn:El.
  - rewrite (EnumValues_found cmd _ values1 i f El), (EnumValues_found cmd _ values2 i f El).
    assert (flag_Name (setValues values1 f) = flagName) as Hname
      by (by apply Lookup_Some in El as (_ & ? & _)).
    rewrite (EnumValues_found _ _ values2 i (setValues values1 f))
      by (cbn [withFlags cmd_Flags]; by apply (Lookup_replaced _ _ _ f)).
    unfold withFlags. cbn. rewrite list_insert_insert_eq.
    unfold setValues, withAnnotations. cbn. by rewrite insert_insert_eq.
  - unfold EnumValues at 2. rewrite El. done.
Qed.

(** X10. [EnumValues] with an empty list does not make the flag an enum:
    the flag is then described with the type of its [ArgTypes] override,
    or else with its inferred type, and without values, also when it
    carried values before. *)
Theorem EnumValues_empty_list :
  ∀ (cmd : Command) (flagName : string) (ann : option CommandAnnotation)
    (i : nat) (f : Flag),
    Lookup (cmd_Flags cmd) flagName = Some (i, f) →
    ∃ f',
      Lookup (cmd_Flags (EnumValues cmd flagName [])) flagName = Some (i, f') ∧
      arg_Type (flagDescriptor ann f') =
        default (pflagTypeToMTP f) (ann ≫= λ a, ann_ArgTypes a !! flagName) ∧
      arg_Values (flagDescriptor ann f') = [].
Proof.
  intros cmd flagName ann i f El. exists (setValues [] f).
  assert (flag_Name (setValues [] f) = flagName) as Hname
    by (by apply Lookup_Some in El as (_ & ? & _)).
  assert (flagAnnotation (setValues [] f) "values" = Some []) as Hv.
  { unfold flagAnnotation, setValues. cbn. apply lookup_insert_eq. }
  split_and!.
  - rewrite (EnumValues_found cmd _ [] i f El). cbn [withFlags cmd_Flags].
    by apply (Lookup_replaced _ _ _ f).
  - rewrite flagDescriptor_type, Hv, Hname. done.
  - unfold flagDescriptor. by rewrite Hv.
Qed.

Lemma EnumValues_empty_list_witness :
  Tests.argsOf (Describe (EnumValues
     (EnumValues formatCommand "format" ["json"; "csv"; "yaml"]) "format" []) None)
  = [[("--format", "string")]] ∧
  ∃ f', arg_Type (flagDescriptor (Some formatAsInteger) f') = "integer" ∧
        arg_Values (flagDescriptor (Some formatAsInteger) f') = [].
Proof.
  split; [vm_compute; reflexivity|].
  destruct (EnumValues_empty_list formatCommand "format" (Some formatAsInteger) 0
              (Tests.mkFlag "format" "string" "json" "Output format") eq_refl)
    as (f' & _ & Ht & Hv).
  exists f'. split; [|done]. rewrite Ht. reflexivity.
Defined.

Lemma insert_as_fmap (l : list Flag) (name : string) (g : Flag → Flag) i f :
  NoDup (flag_Name <$> l) → l !! i = Some f → flag_Name f = name →
  <[i := g f]> l = (λ f0, if decide (flag_Name f0 = name) then g f0 else f0) <$> l.
Proof.
  intros Hnd Hi Hname. apply list_eq. intros j. rewrite list_lookup_fmap.
  destruct (decide (j = i)) as [->|Hji].
  - rewrite list_lookup_insert_eq by (by eapply lookup_lt_Some).
    rewrite Hi. cbn. by rewrite decide_True.
  - rewrite list_lookup_insert_ne by done.
    destruct (l !! j) as [y|] eqn:Hj; [|done]. cbn.
    rewrite decide_False; [done|]. intros Hy. apply Hji.
    apply (NoDup_lookup (flag_Name <$> l) j i name); [done|..];
      rewrite list_lookup_fmap; [by rewrite Hj; cbn; rewrite Hy | by rewrite Hi; cbn; rewrite Hname].
Qed.

Lemma VisitAll_fmap (g : Flag → Flag) (fs : FlagSet) :
  (∀ f, flag_Name (g f) = flag_Name f) →
  NoDup (flag_Name <$> orderedFormal fs) →
  VisitAll {| orderedFormal := g <$> orderedFormal fs; SortFlags := SortFlags fs |}
  = g <$> VisitAll fs.
Proof.
  intros Hg Hnd. unfold VisitAll. cbn [orderedFormal SortFlags].
  destruct (SortFlags fs); [|done].
  assert (∀ l : list Flag, flag_Name <$> (g <$> l) = flag_Name <$> l) as Hnames.
  { intros l. rewrite <- list_fmap_compose. apply list_fmap_ext. intros ? f _. apply Hg. }
  apply sorted_by_name_unique.
  - by rewrite merge_sort_Permutation, Hnames.
  - by rewrite !merge_sort_Permutation.
  - apply Sorted_merge_sort, _.
  - apply (Sorted_fmap g flagNameLe); [|apply Sorted_merge_sort, _].
    intros x y. unfold flagNameLe. by rewrite !Hg.
Qed.

Lemma flagDescriptor_required ann f :
  arg_Required (flagDescriptor ann f) =
  match flagAnnotation f BashCompOneRequiredFlag with
  | Some (_ :: _) => true
  | _ => false
  end.
Proof.
  unfold flagDescriptor. by destruct (flagAnnotation f "values") as [[|v vs]|].
Qed.

Lemma flagAnnotation_setValues_ne values f key :
  key ≠ "values" →
  flagAnnotation (setValues values f) key = flagAnnotation f key.
Proof.
  intros Hne. unfold flagAnnotation, setValues. cbn.
  rewrite lookup_insert_ne by done.
  destruct (flag_Annotations f); [done | apply lookup_empty].
Qed.

(** X11. [EnumValues] adds, removes and reorders no flag descriptor of
    the command, and changes no name, description, required mark or
    default; the descriptors of the other flags stay as they were, the
    names of the flags being distinct. *)
Theorem EnumValues_touches_one_descriptor :
  ∀ (cmd : Command) (flagName : string) (values : list string)
    (ann : option CommandAnnotation),
    NoDup (flag_Name <$> orderedFormal (cmd_Flags cmd)) →
    Forall2 (λ x y,
               arg_Name x = arg_Name y ∧ arg_Description x = arg_Description y ∧
               arg_Required x = arg_Required y ∧ arg_Default x = arg_Default y ∧
               (arg_Name y ≠ "--" +:+ flagName → x = y))
            (extractFlags (EnumValues cmd flagName values) ann)
            (extractFlags cmd ann).
Proof.
  intros cmd flagName values ann Hnd.
  destruct (Lookup (cmd_Flags cmd) flagName) as [[i f]|] eqn:El.
  - rewrite (EnumValues_found cmd _ values i f El), !extractFlags_eq.
    cbn [withFlags cmd_Flags].
    pose proof El as (Hi & Hname & _)%Lookup_Some.
    rewrite (insert_as_fmap _ flagName (setValues values) i f Hnd Hi Hname).
    set (g := λ f0, if decide (flag_Name f0 = flagName) then setValues values f0 else f0).
    assert (∀ f0, flag_Name (g f0) = flag_Name f0) as Hg.
    { intros f0. unfold g. by case_decide. }
    assert (∀ f0, skipsFlag (g f0) = skipsFlag f0) as Hs.
    { intros f0. unfold g. by case_decide. }
    rewrite (VisitAll_fmap g _ Hg Hnd).
    induction (VisitAll (cmd_Flags cmd)) as [|f0 l IH]; [constructor|].
    rewrite fmap_cons, !filter_cons, Hs. case_decide; [|done].
    rewrite !fmap_cons. constructor; [|done].
    destruct (flagDescriptor_fields ann f0) as (Hn0 & Hd0 & Hdef0 & _).
    unfold g. case_decide as Hf0; [|done].
    destruct (flagDescriptor_fields ann (setValues values f0)) as (Hn & Hd & Hdef & _).
    rewrite Hn, Hd, Hdef, Hn0, Hd0, Hdef0. split_and!; try done.
    + rewrite !flagDescriptor_required. by rewrite flagAnnotation_setValues_ne.
    + intros Hne. destruct Hne. by rewrite Hf0.
  - unfold EnumValues. rewrite El.
    induction (extractFlags cmd ann); constructor; done.
Qed.

Lemma EnumValues_touches_one_descriptor_witness :
  Tests.argsOf (Describe (EnumValues fetchCommand "format" ["json"; "csv"]) None)
  = [[("url", "string"); ("--format", "enum"); ("--token", "string")]] ∧
  length (extractFlags (EnumValues fetchCommand "format" ["json"; "csv"]) None)
  = length (extractFlags fetchCommand None).
Proof.
  split; [vm_compute; reflexivity|].
  eapply Forall2_length.
  apply (EnumValues_touches_one_descriptor fetchCommand "format" ["json"; "csv"] None).
  vm_compute. repeat constructor; rewrite ?elem_of_cons, ?elem_of_nil; intuition discriminate.
Defined.

(** ** Distinct command names *)

Lemma string_app_nil_r (s : string) : s +:+ "" = s.
Proof.
  induction s as [|c s IH]; [done|].
  change (String c (s +:+ "") = String c s). by rewrite IH.
Qed.

Lemma pathName_Under prefix path : prefix ≠ "" → Under prefix (pathName prefix path).
Proof.
  intros Hne. rewrite pathName_concat_from by done.
  destruct path as [|c path].
  - exists "". split; [by rewrite string_app_nil_r | by left].
  - exists (" " +:+ String.concat " " (cmd_Name <$> (c :: path))). split; [done|].
    right. by eexists.
Qed.

Lemma walkCommands_names_Under cmd prefix opts name :
  prefix ≠ "" → name ∈ cd_Name <$> walkCommands cmd prefix opts → Under prefix name.
Proof.
  intros Hne (cd & -> & Hcd)%list_elem_of_fmap.
  apply walkCommands_sound in Hcd as (path & node & _ & _ & -> & _).
  pose proof (pathName_Under prefix path Hne) as Hu.
  unfold leafName. case_decide as He; [|done].
  destruct Hu as (t & Ht & _). rewrite He in Ht.
  destruct prefix; [done | discriminate].
Qed.

Lemma spaceFree_split (n1 n2 t1 t2 : string) :
  spaceFree n1 → spaceFree n2 →
  (t1 = "" ∨ ∃ rest, t1 = String " " rest) →
  (t2 = "" ∨ ∃ rest, t2 = String " " rest) →
  n1 +:+ t1 = n2 +:+ t2 → n1 = n2.
Proof.
  revert n2. induction n1 as [|c1 n1 IH]; intros [|c2 n2] Hf1 Hf2 Ht1 Ht2 Heq.
  - done.
  - change (t1 = String c2 (n2 +:+ t2)) in Heq. destruct Hf2 as [Hc _].
    destruct Ht1 as [->|[rest ->]]; [done|]. by injection Heq as <- _.
  - change (String c1 (n1 +:+ t1) = t2) in Heq. destruct Hf1 as [Hc _].
    destruct Ht2 as [->|[rest ->]]; [done|]. by injection Heq as -> _.
  - change (String c1 (n1 +:+ t1) = String c2 (n2 +:+ t2)) in Heq.
    injection Heq as -> Heq. destruct Hf1 as [_ Hf1], Hf2 as [_ Hf2].
    f_equal. by apply IH.
Qed.

Lemma subPath_front prefix sub :
  subPath prefix sub =
  (if decide (prefix = "") then "" else prefix +:+ " ") +:+ cmd_Name sub.
Proof. unfold subPath. case_decide; [done|]. by rewrite string_app_assoc. Qed.

Lemma Under_subPath_inj prefix v w name :
  spaceFree (cmd_Name v) → spaceFree (cmd_Name w) →
  Under (subPath prefix v) name → Under (subPath prefix w) name →
  cmd_Name v = cmd_Name w.
Proof.
  intros Hv Hw (t1 & -> & Ht1) (t2 & Heq & Ht2).
  rewrite !subPath_front, !string_app_assoc in Heq.
  apply (inj (String.app _)) in Heq. by apply (spaceFree_split _ _ t1 t2).
Qed.

Lemma subPath_nonempty prefix sub : cmd_Name sub ≠ "" → subPath prefix sub ≠ "".
Proof.
  intros Hne. unfold subPath. case_decide; [done|]. by apply string_app_nonempty.
Qed.

Lemma walkCommands_names_NoDup cmd :
  WellNamed cmd →
  ∀ prefix opts, NoDup (cd_Name <$> walkCommands cmd prefix opts).
Proof.
  induction cmd as [cmd IH] using Command_tree_ind. intros Hwn prefix opts.
  destruct (visibleSubcommands cmd) as [|v0 vs0] eqn:E.
  - rewrite walkCommands_leaf by done. apply NoDup_singleton.
  - rewrite walkCommands_group by (by rewrite E). clear E.
    inversion Hwn as [? Hnd Hsubs]; subst.
    assert (Forall (λ sub, WellNamed sub → ∀ prefix opts,
              NoDup (cd_Name <$> walkCommands sub prefix opts))
              (visibleSubcommands cmd)) as IHv.
    { apply Forall_forall. intros sub Hsub. rewrite Forall_forall in IH.
      apply IH. by apply elem_of_visibleSubcommands in Hsub as [? _]. }
    clear IH Hwn.
    induction (visibleSubcommands cmd) as [|v vs IHvs]; [constructor|].
    cbn [flat_map]. rewrite fmap_app.
    apply Forall_cons in Hsubs as [(Hne & Hsf & Hwn) Hsubs].
    apply Forall_cons in IHv as [IHv IHrest].
    rewrite fmap_cons in Hnd. apply NoDup_cons in Hnd as [Hv Hnd].
    apply NoDup_app. split_and!.
    + by apply IHv.
    + intros name Hin1 (cd & -> & Hcd)%list_elem_of_fmap.
      apply list_elem_of_In, in_flat_map in Hcd as (w & Hw & Hcd).
      apply list_elem_of_In in Hw, Hcd.
      rewrite Forall_forall in Hsubs. destruct (Hsubs w Hw) as (Hwne & Hwsf & _).
      apply Hv. apply list_elem_of_fmap. exists w. split; [|done].
      apply (Under_subPath_inj prefix v w (cd_Name cd)); [done | done | |].
      * eapply walkCommands_names_Under; [by apply subPath_nonempty | done].
      * eapply walkCommands_names_Under; [by apply subPath_nonempty|].
        by apply list_elem_of_fmap_2.
    + by apply IHvs.
Qed.

(** X12. In a tree where the visible subcommands of each command have
    pairwise distinct names, none empty and none with a space in it, the
    descriptors of the schema have pairwise distinct names. *)
Theorem command_names_distinct :
  ∀ (root : Command) (opts : option DescribeOptions),
    WellNamed root →
    NoDup (cd_Name <$> schema_Commands (Describe root opts)).
Proof.
  intros root opts Hwn. cbn [Describe schema_Commands].
  by apply walkCommands_names_NoDup.
Qed.

Lemma command_names_distinct_witness :
  cd_Name <$> schema_Commands (Describe twoGroups None)
    = ["db migrate"; "db seed"; "cache clear"] ∧
  NoDup (cd_Name <$> schema_Commands (Describe twoGroups None)).
Proof.
  split; [vm_compute; reflexivity|].
  apply (command_names_distinct twoGroups None).
  repeat
    (first
       [ apply well_named;
         match goal with
         | |- context [visibleSubcommands ?c] =>
             let v := eval vm_compute in (visibleSubcommands c) in
             change (visibleSubcommands c) with v
         end
       | constructor ];
     cbn; rewrite ?elem_of_cons, ?elem_of_nil; try (intuition discriminate)).
Defined.

(** ** Single-command tools *)

(** X13. A root all of whose subcommands are hidden or named "help" or
    "completion", or that has none, is described as a single-command
    tool: one descriptor, named "_root", of the root itself, under the
    annotation filed as "_root". *)
Theorem single_command_tool :
  ∀ (root : Command) (opts : option DescribeOptions),
    Forall (λ sub, cmd_Hidden sub = true ∨
                   cmd_Name sub = "help" ∨ cmd_Name sub = "completion")
           (cmd_Commands root) →
    schema_Commands (Describe root opts)
    = [extractCommand root "_root" (annotationFor opts "_root")].
Proof.
  intros root opts Hall. cbn [Describe schema_Commands].
  apply walkCommands_leaf.
  destruct (visibleSubcommands root) as [|v vs] eqn:E; [done|].
  assert (v ∈ visibleSubcommands root) as Hv by (rewrite E; apply list_elem_of_here).
  apply elem_of_visibleSubcommands in Hv as (Hc & Hh & Hn1 & Hn2).
  rewrite Forall_forall in Hall. destruct (Hall v Hc) as [?|[?|?]]; congruence.
Qed.

Lemma single_command_tool_witness :
  schema_Commands (Describe
     (Tests.mkCommand "tool" "tool" "A tool" []
        [Tests.mkCommand "help" "help" "Help about any command" [] [];
         Tests.mkCommand "completion" "completion" "Generate completions" [] []]) None)
  = [extractCommand
       (Tests.mkCommand "tool" "tool" "A tool" []
          [Tests.mkCommand "help" "help" "Help about any command" [] [];
           Tests.mkCommand "completion" "completion" "Generate completions" [] []])
       "_root" None].
Proof.
  apply (single_command_tool _ None).
  cbn [Tests.mkCommand cmd_Commands].
  repeat (constructor; [right; first [by left | by right]|]). constructor.
Defined.

(** ** Brackets in the usage string *)

Lemma trimLeft_head cutset cs c :
  head (strings.trimLeft cutset cs) = Some c → c ∉ cutset.
Proof.
  induction cs as [|x cs IH]; [done|]. cbn [strings.trimLeft].
  case_bool_decide; [done|]. cbn. by intros [= <-].
Qed.

Lemma trimLeft_suffix cutset cs :
  ∃ k, cs = k ++ strings.trimLeft cutset cs.
Proof.
  induction cs as [|x cs [k IH]]; [by exists []|]. cbn [strings.trimLeft].
  case_bool_decide; [|by exists []]. exists (x :: k). by rewrite <- app_comm_cons, <- IH.
Qed.

Lemma Trim_ends (s cutset : string) (c : ascii) :
  head (list_ascii_of_string (strings.Trim s cutset)) = Some c ∨
  last (list_ascii_of_string (strings.Trim s cutset)) = Some c →
  c ∉ list_ascii_of_string cutset.
Proof.
  unfold strings.Trim. rewrite list_ascii_of_string_of_list_ascii.
  set (cut := list_ascii_of_string cutset).
  set (inner := strings.trimLeft cut (reverse (list_ascii_of_string s))).
  intros [Hh|Hl]; [by apply trimLeft_head in Hh|].
  destruct (trimLeft_suffix cut (reverse inner)) as [k Hk].
  assert (last (reverse inner) = Some c) as Hlast.
  { rewrite Hk, last_app, Hl. done. }
  rewrite last_reverse in Hlast. by apply trimLeft_head in Hlast.
Qed.

(** X14. The name of a positional arg read off the usage string has its
    brackets off however many there were: that of a required arg neither
    begins nor ends with "<" or ">", that of an optional one neither
    begins nor ends with "[" or "]". *)
Theorem positional_names_without_brackets :
  ∀ (use : string),
    Forall (λ x, ∀ c,
              head (list_ascii_of_string (arg_Name x)) = Some c ∨
              last (list_ascii_of_string (arg_Name x)) = Some c →
              if arg_Required x
              then c ≠ "<"%char ∧ c ≠ ">"%char
              else c ≠ "["%char ∧ c ≠ "]"%char)
           (parseUseArgs use).
Proof.
  intros use. rewrite parseUseArgs_eq. apply Forall_forall. intros x Hx c Hc.
  apply list_elem_of_In, in_flat_map in Hx as (part & _ & Hx).
  apply list_elem_of_In in Hx. unfold parseUsePart in Hx.
  destruct (strings.HasPrefix part "<" && strings.HasSuffix part ">");
    [|destruct (strings.HasPrefix part "[" && strings.HasSuffix part "]");
      [|by apply elem_of_nil in Hx]];
    apply list_elem_of_singleton in Hx as ->; cbn [arg_Name arg_Required] in *;
    apply Trim_ends in Hc; cbn in Hc; rewrite !elem_of_cons, elem_of_nil in Hc;
    split; intros ->; tauto.
Qed.
